(** * chess-board-renderer: the notation validator and the board renderer

    A shallow embedding of [main.go]: the piece vocabulary, the [FEN]
    pattern, [validate] and [render], together with the parts of the Go
    libraries they call ([regexp], [strings.Split], [strconv.Atoi],
    [image], [image/color], [image/draw], [echo]).

    Strings are lists of bytes.  Every string that reaches the rune loop of
    [validate] has passed [FEN], whose alphabet is ASCII, so bytes and runes
    coincide there. *)

From Stdlib Require Import ZArith List Ascii String Bool Lia.
From stdpp Require Import base list list_numbers gmap strings.

(** ** Package [regexp] *)

Module GoRegexp.

(** The operators of [regexp/syntax] that [FEN] needs once counted
    repetition has been expanded (as [syntax.Simplify] does before
    compiling). *)
Inductive Regexp : Type :=
| NoMatch
| EmptyMatch
| Literal (c : ascii)
| CharClass (ranges : list (ascii * ascii))
| Concat (r1 r2 : Regexp)
| Alternate (r1 r2 : Regexp).

(** [x{n}] : n copies of [x]. *)
Fixpoint Times (n : nat) (x : Regexp) : Regexp :=
  match n with
  | O => EmptyMatch
  | S n' => Concat x (Times n' x)
  end.

(** [(x(x(...)?)?)?] : at most [k] copies of [x]. *)
Fixpoint UpTo (k : nat) (x : Regexp) : Regexp :=
  match k with
  | O => EmptyMatch
  | S k' => Alternate (Concat x (UpTo k' x)) EmptyMatch
  end.

(** [x{min,max}] is [min] copies of [x] followed by at most [max - min]. *)
Definition Repeat (min max : nat) (x : Regexp) : Regexp :=
  Concat (Times min x) (UpTo (max - min) x).

Definition inRange (c : ascii) (range : ascii * ascii) : bool :=
  (nat_of_ascii (fst range) <=? nat_of_ascii c)%nat
  && (nat_of_ascii c <=? nat_of_ascii (snd range))%nat.

Definition inClass (ranges : list (ascii * ascii)) (c : ascii) : bool :=
  existsb (inRange c) ranges.

Fixpoint nullable (r : Regexp) : bool :=
  match r with
  | NoMatch => false
  | EmptyMatch => true
  | Literal _ => false
  | CharClass _ => false
  | Concat r1 r2 => nullable r1 && nullable r2
  | Alternate r1 r2 => nullable r1 || nullable r2
  end.

(** What is left of [r] to match once the byte [c] has been read. *)
Fixpoint deriv (c : ascii) (r : Regexp) : Regexp :=
  match r with
  | NoMatch => NoMatch
  | EmptyMatch => NoMatch
  | Literal a => if Ascii.eqb a c then EmptyMatch else NoMatch
  | CharClass ranges => if inClass ranges c then EmptyMatch else NoMatch
  | Concat r1 r2 =>
      if nullable r1
      then Alternate (Concat (deriv c r1) r2) (deriv c r2)
      else Concat (deriv c r1) r2
  | Alternate r1 r2 => Alternate (deriv c r1) (deriv c r2)
  end.

(** [re.MatchString(s)] for a pattern written [^...$] without flags: [^]
    is the beginning and [$] the very end of the text, so the pattern has
    to match the whole of [s]. *)
Definition MatchString (re : Regexp) (s : list ascii) : bool :=
  nullable (fold_left (fun r c => deriv c r) s re).

(** The language of a pattern, for the proofs. *)
Inductive Matches : Regexp -> list ascii -> Prop :=
| MEmpty : Matches EmptyMatch []
| MLiteral c : Matches (Literal c) [c]
| MClass ranges c : inClass ranges c = true -> Matches (CharClass ranges) [c]
| MConcat r1 r2 s1 s2 :
    Matches r1 s1 -> Matches r2 s2 -> Matches (Concat r1 r2) (s1 ++ s2)
| MAltL r1 r2 s : Matches r1 s -> Matches (Alternate r1 r2) s
| MAltR r1 r2 s : Matches r2 s -> Matches (Alternate r1 r2) s.

End GoRegexp.

(** ** Package [strings] *)

Module GoStrings.

(** [strings.Split(s, sep)] for a one-byte separator: the pieces of [s]
    between the occurrences of [sep]; a string without [sep] (the empty
    one too) is returned as the only piece. *)
Fixpoint Split (s : list ascii) (sep : ascii) : list (list ascii) :=
  match s with
  | [] => [[]]
  | c :: s' =>
      if Ascii.eqb c sep then [] :: Split s' sep
      else match Split s' sep with
           | segment :: rest => (c :: segment) :: rest
           | [] => [[c]]
           end
  end.

(** [strings.Join(elems, sep)], the inverse used in the proofs. *)
Fixpoint Join (elems : list (list ascii)) (sep : ascii) : list ascii :=
  match elems with
  | [] => []
  | [e] => e
  | e :: rest => e ++ sep :: Join rest sep
  end.

End GoStrings.

(** ** Package [strconv] *)

Module GoStrconv.

Inductive NumError : Type := ErrSyntax | ErrRange.

Definition digitVal (c : ascii) : option Z :=
  let n := nat_of_ascii c in
  if ((48 <=? n) && (n <=? 57))%nat then Some (Z.of_nat n - 48)%Z else None.

Fixpoint digits (acc : Z) (s : list ascii) : option Z :=
  match s with
  | [] => Some acc
  | c :: s' =>
      match digitVal c with
      | Some d => digits (acc * 10 + d)%Z s'
      | None => None
      end
  end.

Definition maxInt : Z := (2 ^ 63 - 1)%Z.
Definition minInt : Z := (- 2 ^ 63)%Z.

(** [strconv.Atoi]: an optional sign and at least one decimal digit.  On a
    syntax error the value is 0; out of the range of [int] it is the
    nearest bound. *)
Definition Atoi (s : list ascii) : Z * option NumError :=
  let '(neg, body) :=
    match s with
    | c :: s' =>
        if Ascii.eqb c "-" then (true, s')
        else if Ascii.eqb c "+" then (false, s')
        else (false, s)
    | [] => (false, s)
    end in
  match body with
  | [] => (0%Z, Some ErrSyntax)
  | _ =>
      match digits 0 body with
      | None => (0%Z, Some ErrSyntax)
      | Some n =>
          let v := if neg then (- n)%Z else n in
          if (maxInt <? v)%Z then (maxInt, Some ErrRange)
          else if (v <? minInt)%Z then (minInt, Some ErrRange)
          else (v, None)
      end
  end.

End GoStrconv.

(** ** Package [echo] *)

Module Echo.

Record HTTPError : Type := { Code : Z; Message : string }.

Definition NewHTTPError (code : Z) (message : string) : HTTPError :=
  {| Code := code; Message := message |}.

End Echo.

(** ** The notation validator *)

(** [type Piece int] with its thirteen constants. *)
Inductive Piece : Type :=
| Empty
| WhitePawn | WhiteKnight | WhiteBishop | WhiteRook | WhiteQueen | WhiteKing
| BlackPawn | BlackKnight | BlackBishop | BlackRook | BlackQueen | BlackKing.

(** The value of each constant ([iota]). *)
Definition Piece_int (p : Piece) : Z :=
  match p with
  | Empty => 0
  | WhitePawn => 1 | WhiteKnight => 2 | WhiteBishop => 3
  | WhiteRook => 4 | WhiteQueen => 5 | WhiteKing => 6
  | BlackPawn => 7 | BlackKnight => 8 | BlackBishop => 9
  | BlackRook => 10 | BlackQueen => 11 | BlackKing => 12
  end%Z.

Definition Piece_eqb (p q : Piece) : bool := (Piece_int p =? Piece_int q)%Z.

(** The class [[rnbqkpRNBQKP1-8]], as ranges of bytes. *)
Definition FEN_ranges : list (ascii * ascii) :=
  [("r", "r"); ("n", "n"); ("b", "b"); ("q", "q"); ("k", "k"); ("p", "p");
   ("R", "R"); ("N", "N"); ("B", "B"); ("Q", "Q"); ("K", "K"); ("P", "P");
   ("1", "8")]%char.

Definition FEN_class : GoRegexp.Regexp := GoRegexp.CharClass FEN_ranges.

(** [([rnbqkpRNBQKP1-8]{1,8}/){n}[rnbqkpRNBQKP1-8]{1,8}] *)
Definition FEN_rows (n : nat) : GoRegexp.Regexp :=
  GoRegexp.Concat
    (GoRegexp.Times n
       (GoRegexp.Concat (GoRegexp.Repeat 1 8 FEN_class) (GoRegexp.Literal "/")))
    (GoRegexp.Repeat 1 8 FEN_class).

(** [^([rnbqkpRNBQKP1-8]{1,8}/){7}[rnbqkpRNBQKP1-8]{1,8}$] *)
Definition FEN : GoRegexp.Regexp := FEN_rows 7.

Definition pieceChars : gmap ascii Piece :=
  list_to_map
    [("P", WhitePawn); ("N", WhiteKnight); ("B", WhiteBishop);
     ("R", WhiteRook); ("Q", WhiteQueen); ("K", WhiteKing);
     ("p", BlackPawn); ("n", BlackKnight); ("b", BlackBishop);
     ("r", BlackRook); ("q", BlackQueen); ("k", BlackKing)]%char.

(** [m[key]] on a Go map: the zero value when the key is absent. *)
Definition pieceChars_index (char : ascii) : Piece :=
  default Empty (pieceChars !! char).

(** [type Board struct { Pieces [8][8]Piece }] *)
Record Board : Type := { Pieces : list (list Piece) }.

(** The shape that the array type [[8][8]Piece] fixes. *)
Definition Board_shape (b : Board) : Prop :=
  length (Pieces b) = 8%nat /\ Forall (fun row => length row = 8%nat) (Pieces b).

(** [&Board{Pieces: [8][8]Piece{}}] *)
Definition Board_zero : Board := {| Pieces := replicate 8 (replicate 8 Empty) |}.

(** What a Go call leaves behind: the returned pair (a [nil] pointer or
    error is [None]), or a run-time panic. *)
Inductive Outcome : Type :=
| Returned (board : option Board) (err : option Echo.HTTPError)
| Panicked.

(** [return nil, echo.NewHTTPError(400, "Invalid FEN")] *)
Definition InvalidFEN : Outcome :=
  Returned None (Some (Echo.NewHTTPError 400 "Invalid FEN")).

(** The built-in [copy(dst, src)]: the first [min(len(dst), len(src))]
    elements of [dst] are overwritten. *)
Definition copy {A : Type} (dst src : list A) : list A :=
  take (length dst) src ++ drop (length src) dst.

(** One turn of the loop over the runes of a segment (lines 118-127). *)
Definition validate_rune (rowPieces : list Piece) (char : ascii) : list Piece :=
  let piece := pieceChars_index char in
  if Piece_eqb piece Empty then
    let '(blanks, _) := GoStrconv.Atoi [char] in
    rowPieces ++ replicate (Z.to_nat blanks) Empty
  else rowPieces ++ [piece].

(** The loop over the segments (lines 115-135); [row] is the index that
    [range] hands out. *)
Fixpoint validate_rows (row : nat) (segments : list (list ascii))
    (result : Board) : Outcome :=
  match segments with
  | [] => Returned (Some result) None
  | segment :: rest =>
      let rowPieces := fold_left validate_rune segment [] in
      if negb (length rowPieces =? 8)%nat then InvalidFEN
      else
        match Pieces result !! row with
        | None => Panicked
        | Some dst =>
            validate_rows (S row) rest
              {| Pieces := <[row := copy dst rowPieces]> (Pieces result) |}
        end
  end.

Definition validate (board : string) : Outcome :=
  let board := list_ascii_of_string board in
  if negb (GoRegexp.MatchString FEN board) then InvalidFEN
  else
    validate_rows 0 (GoStrings.Split board "/") Board_zero.

(** ** Package [image/color] *)

Module GoColor.

(** What [Color.RGBA()] returns: alpha-premultiplied channels, each in
    [0, 0xffff]. *)
Record Channels : Type := { r : Z; g : Z; b : Z; a : Z }.

(** [color.RGBA]: alpha-premultiplied channels of 8 bits. *)
Record RGBA : Type := { R : Z; G : Z; B : Z; A : Z }.

(** [func (c RGBA) RGBA()]: [r = uint32(c.R); r |= r << 8] and so on. *)
Definition RGBA_RGBA (c : RGBA) : Channels :=
  {| r := Z.lor (R c) (Z.shiftl (R c) 8);
     g := Z.lor (G c) (Z.shiftl (G c) 8);
     b := Z.lor (B c) (Z.shiftl (B c) 8);
     a := Z.lor (A c) (Z.shiftl (A c) 8) |}.

(** [func (c Gray16) RGBA()] *)
Definition Gray16_RGBA (y : Z) : Channels :=
  {| r := y; g := y; b := y; a := 0xffff |}.

(** [color.White = Gray16{0xffff}] *)
Definition White : Channels := Gray16_RGBA 0xffff.

End GoColor.

(** ** Package [image] *)

Module GoImage.

Record Point : Type := { X : Z; Y : Z }.
Record Rectangle : Type := { Min : Point; Max : Point }.

Definition Pt (x y : Z) : Point := {| X := x; Y := y |}.

(** [image.Rect]: the corners are put in order. *)
Definition Rect (x0 y0 x1 y1 : Z) : Rectangle :=
  let '(x0, x1) := if (x1 <? x0)%Z then (x1, x0) else (x0, x1) in
  let '(y0, y1) := if (y1 <? y0)%Z then (y1, y0) else (y0, y1) in
  {| Min := Pt x0 y0; Max := Pt x1 y1 |}.

Definition ZR : Rectangle := {| Min := Pt 0 0; Max := Pt 0 0 |}.

Definition Dx (rc : Rectangle) : Z := (X (Max rc) - X (Min rc))%Z.
Definition Dy (rc : Rectangle) : Z := (Y (Max rc) - Y (Min rc))%Z.

(** [func (r Rectangle) Empty() bool] *)
Definition Rectangle_Empty (rc : Rectangle) : bool :=
  (X (Max rc) <=? X (Min rc))%Z || (Y (Max rc) <=? Y (Min rc))%Z.

Definition Point_Sub (p q : Point) : Point :=
  Pt (X p - X q)%Z (Y p - Y q)%Z.

Definition Add (rc : Rectangle) (p : Point) : Rectangle :=
  {| Min := Pt (X (Min rc) + X p)%Z (Y (Min rc) + Y p)%Z;
     Max := Pt (X (Max rc) + X p)%Z (Y (Max rc) + Y p)%Z |}.

(** [func (r Rectangle) Intersect(s Rectangle)]: the larger of the
    minima and the smaller of the maxima, or [ZR] when that is empty. *)
Definition Intersect (rc s : Rectangle) : Rectangle :=
  let x0 := if (X (Min rc) <? X (Min s))%Z then X (Min s) else X (Min rc) in
  let y0 := if (Y (Min rc) <? Y (Min s))%Z then Y (Min s) else Y (Min rc) in
  let x1 := if (X (Max s) <? X (Max rc))%Z then X (Max s) else X (Max rc) in
  let y1 := if (Y (Max s) <? Y (Max rc))%Z then Y (Max s) else Y (Max rc) in
  let rc' := {| Min := Pt x0 y0; Max := Pt x1 y1 |} in
  if Rectangle_Empty rc' then ZR else rc'.

(** [func (p Point) In(r Rectangle)] *)
Definition In (x y : Z) (rc : Rectangle) : bool :=
  (X (Min rc) <=? x)%Z && (x <? X (Max rc))%Z
  && (Y (Min rc) <=? y)%Z && (y <? Y (Max rc))%Z.

(** The interface [image.Image], read through [At(x, y).RGBA()]. *)
Record Image : Type := {
  Bounds : Rectangle;
  At : Z -> Z -> GoColor.Channels
}.

(** [image.Uniform]: one colour on an unbounded rectangle. *)
Definition NewUniform (c : GoColor.Channels) : Image :=
  {| Bounds := {| Min := Pt (-1000000000) (-1000000000);
                  Max := Pt 1000000000 1000000000 |};
     At := fun _ _ => c |}.

Definition White : Image := NewUniform GoColor.White.

(** [image.RGBA]: the pixels in rows of [Stride] bytes, four bytes a
    pixel. *)
Record RGBA : Type := {
  Pix : list Z;
  Stride : Z;
  Rect_ : Rectangle
}.

Definition NewRGBA (rc : Rectangle) : RGBA :=
  {| Pix := replicate (Z.to_nat (4 * Dx rc * Dy rc)) 0%Z;
     Stride := (4 * Dx rc)%Z;
     Rect_ := rc |}.

Definition PixOffset (p : RGBA) (x y : Z) : Z :=
  ((y - Y (Min (Rect_ p))) * Stride p + (x - X (Min (Rect_ p))) * 4)%Z.

Definition byteAt (p : RGBA) (i : nat) : Z := default 0%Z (Pix p !! i).

Definition RGBAAt (p : RGBA) (x y : Z) : GoColor.RGBA :=
  if negb (In x y (Rect_ p)) then
    {| GoColor.R := 0; GoColor.G := 0; GoColor.B := 0; GoColor.A := 0 |}
  else
    let i := Z.to_nat (PixOffset p x y) in
    {| GoColor.R := byteAt p i; GoColor.G := byteAt p (i + 1);
       GoColor.B := byteAt p (i + 2); GoColor.A := byteAt p (i + 3) |}.

Definition SetRGBA (p : RGBA) (x y : Z) (c : GoColor.RGBA) : RGBA :=
  if negb (In x y (Rect_ p)) then p
  else
    let i := Z.to_nat (PixOffset p x y) in
    {| Pix := <[(i + 3)%nat := GoColor.A c]>
                (<[(i + 2)%nat := GoColor.B c]>
                   (<[(i + 1)%nat := GoColor.G c]>
                      (<[i := GoColor.R c]> (Pix p))));
       Stride := Stride p;
       Rect_ := Rect_ p |}.

End GoImage.

(** ** Package [image/draw] *)

Module GoDraw.

Inductive Op : Type := Over | Src.

Definition uint8 (z : Z) : Z := (z mod 256)%Z.

Definition m : Z := 0xffff.

(** One channel of the destination after the operator: [Src] stores the
    high byte of the source channel; [Over] adds the source to the
    destination scaled by the transparency of the source.  [d] is the
    destination byte, [s] the source channel and [sa] the source alpha. *)
Definition channel (op : Op) (d s sa : Z) : Z :=
  match op with
  | Src => uint8 (Z.shiftr s 8)
  | Over => uint8 (Z.shiftr (d * 0x101 * (m - sa) / m + s) 8)
  end.

Definition blend (op : Op) (s : GoColor.Channels) (d : GoColor.RGBA) : GoColor.RGBA :=
  {| GoColor.R := channel op (GoColor.R d) (GoColor.r s) (GoColor.a s);
     GoColor.G := channel op (GoColor.G d) (GoColor.g s) (GoColor.a s);
     GoColor.B := channel op (GoColor.B d) (GoColor.b s) (GoColor.a s);
     GoColor.A := channel op (GoColor.A d) (GoColor.a s) (GoColor.a s) |}.

(** [clip]: the rectangle is cut down to the destination and to the
    source, and the source point moves with its corner. *)
Definition clip (dst : GoImage.RGBA) (rc : GoImage.Rectangle)
    (src : GoImage.Image) (sp : GoImage.Point)
    : GoImage.Rectangle * GoImage.Point :=
  let orig := GoImage.Min rc in
  let rc := GoImage.Intersect rc (GoImage.Rect_ dst) in
  let rc := GoImage.Intersect rc
              (GoImage.Add (GoImage.Bounds src) (GoImage.Point_Sub orig sp)) in
  let dx := (GoImage.X (GoImage.Min rc) - GoImage.X orig)%Z in
  let dy := (GoImage.Y (GoImage.Min rc) - GoImage.Y orig)%Z in
  (rc, GoImage.Pt (GoImage.X sp + dx)%Z (GoImage.Y sp + dy)%Z).

(** The pixel of [dst] at [(x, y)] is combined with the pixel of the
    source that lies over it. *)
Definition drawPixel (src : GoImage.Image) (rc : GoImage.Rectangle)
    (sp : GoImage.Point) (op : Op) (dst : GoImage.RGBA) (x y : Z)
    : GoImage.RGBA :=
  let s := GoImage.At src
             (GoImage.X sp + (x - GoImage.X (GoImage.Min rc)))%Z
             (GoImage.Y sp + (y - GoImage.Y (GoImage.Min rc)))%Z in
  GoImage.SetRGBA dst x y (blend op s (GoImage.RGBAAt dst x y)).

(** [draw.Draw(dst, r, src, sp, op)] with [dst] an [*image.RGBA] and no
    mask. *)
Definition Draw (dst : GoImage.RGBA) (rc : GoImage.Rectangle)
    (src : GoImage.Image) (sp : GoImage.Point) (op : Op) : GoImage.RGBA :=
  let '(rc, sp) := clip dst rc src sp in
  if GoImage.Rectangle_Empty rc then dst
  else
    fold_left
      (fun dst y =>
         fold_left (fun dst x => drawPixel src rc sp op dst x y)
           (seqZ (GoImage.X (GoImage.Min rc)) (GoImage.Dx rc)) dst)
      (seqZ (GoImage.Y (GoImage.Min rc)) (GoImage.Dy rc)) dst.

End GoDraw.

(** ** The renderer *)

Global Instance Piece_eq_dec : EqDecision Piece.
Proof. solve_decision. Defined.

Definition Piece_of_int (z : Z) : option Piece :=
  match z with
  | 0 => Some Empty
  | 1 => Some WhitePawn | 2 => Some WhiteKnight | 3 => Some WhiteBishop
  | 4 => Some WhiteRook | 5 => Some WhiteQueen | 6 => Some WhiteKing
  | 7 => Some BlackPawn | 8 => Some BlackKnight | 9 => Some BlackBishop
  | 10 => Some BlackRook | 11 => Some BlackQueen | 12 => Some BlackKing
  | _ => None
  end%Z.

Global Instance Piece_countable : Countable Piece.
Proof.
  apply (inj_countable Piece_int Piece_of_int).
  intros p. destruct p; reflexivity.
Defined.

(** What the handler leaves behind. *)
Inductive Body : Type :=
| Text (s : string)
| PNG (img : GoImage.RGBA).

Record Response : Type := {
  Status : Z;
  Header : gmap string string;
  ResponseBody : Body
}.

Record Rendered : Type := {
  response : Response;
  stdout : string
}.

(** [b.Pieces[row][column]]; [None] is an index out of range. *)
Definition Board_index (b : Board) (row column : Z) : option Piece :=
  if ((row <? 0) || (column <? 0))%Z then None
  else rowPieces ← Pieces b !! Z.to_nat row; rowPieces !! Z.to_nat column.

(** The twelve embedded images, decoded when the program starts. *)
Record Assets : Type := {
  WhitePawnImage : GoImage.Image;
  WhiteKnightImage : GoImage.Image;
  WhiteBishopImage : GoImage.Image;
  WhiteRookImage : GoImage.Image;
  WhiteQueenImage : GoImage.Image;
  WhiteKingImage : GoImage.Image;
  BlackPawnImage : GoImage.Image;
  BlackKnightImage : GoImage.Image;
  BlackBishopImage : GoImage.Image;
  BlackRookImage : GoImage.Image;
  BlackQueenImage : GoImage.Image;
  BlackKingImage : GoImage.Image
}.

Section Renderer.

Variable assets : Assets.

(** The methods [Error] of [echo.HTTPError] and [String] of
    [time.Duration]. *)
Variable HTTPError_Error : Echo.HTTPError -> string.
Variable Duration_String : Z -> string.

Definition pieceImages : gmap Piece GoImage.Image :=
  list_to_map
    [(WhitePawn, WhitePawnImage assets); (WhiteKnight, WhiteKnightImage assets);
     (WhiteBishop, WhiteBishopImage assets); (WhiteRook, WhiteRookImage assets);
     (WhiteQueen, WhiteQueenImage assets); (WhiteKing, WhiteKingImage assets);
     (BlackPawn, BlackPawnImage assets); (BlackKnight, BlackKnightImage assets);
     (BlackBishop, BlackBishopImage assets); (BlackRook, BlackRookImage assets);
     (BlackQueen, BlackQueenImage assets); (BlackKing, BlackKingImage assets)].

(** [image.Rect(column*64, row*64, (column*64)+64, (row*64)+64)] *)
Definition tileRect (row column : Z) : GoImage.Rectangle :=
  GoImage.Rect (column * 64) (row * 64) (column * 64 + 64) (row * 64 + 64).

Definition tileColour (row column : Z) : Z := Z.rem (row + column) 2.

Definition darkGray : GoColor.RGBA :=
  {| GoColor.R := 0x4f; GoColor.G := 0x4f; GoColor.B := 0x4f; GoColor.A := 0xff |}.

(** The body of the inner loop (lines 153-171); [None] is a panic. *)
Definition render_cell (b : Board) (img : GoImage.RGBA) (row column : Z)
    : option GoImage.RGBA :=
  piece ← Board_index b row column;
  let img :=
    if (tileColour row column =? 0)%Z then
      GoDraw.Draw img (tileRect row column)
        (GoImage.NewUniform (GoColor.RGBA_RGBA darkGray))
        (GoImage.Pt 0 0) GoDraw.Src
    else img in
  if Piece_eqb piece Empty then Some img
  else
    pieceImage ← pieceImages !! piece;
    Some (GoDraw.Draw img (tileRect row column) pieceImage
            (GoImage.Pt 0 0) GoDraw.Over).

(** Lines 148-173: the canvas, the white background and the two loops. *)
Definition render_board (b : Board) : option GoImage.RGBA :=
  let img := GoImage.NewRGBA (GoImage.Rect 0 0 512 512) in
  let img := GoDraw.Draw img (GoImage.Rect_ img) GoImage.White
               (GoImage.Pt 0 0) GoDraw.Src in
  fold_left
    (fun acc row =>
       fold_left
         (fun acc column => img ← acc; render_cell b img row column)
         (seqZ 0 8) acc)
    (seqZ 0 8) (Some img).

(** [render]; [start] and [now] are the two readings of the clock, and
    [None] is a panic. *)
Definition render (board : string) (start now : Z) : option Rendered :=
  match validate board with
  | Panicked => None
  | Returned _ (Some err) =>
      Some {| response := {| Status := 400;
                             Header := {[ "Content-Type" := "text/plain; charset=UTF-8" ]};
                             ResponseBody := Text (HTTPError_Error err) |};
              stdout := "" |}
  | Returned None None => None
  | Returned (Some b) None =>
      img ← render_board b;
      let processingTime := (now - start)%Z in
      Some {| response :=
                {| Status := 200;
                   Header := <[ "X-Processing-Time" := Duration_String processingTime ]>
                               (<[ "Content-Type" := "image/png" ]> ∅);
                   ResponseBody := PNG img |};
              stdout := "Rendered board in " +:+ Duration_String processingTime
                        +:+ String "010" EmptyString |}
  end.

End Renderer.

(** ** Start-up and the handler *)

Section Startup.

(** The embedded file system ([//go:embed static]), path to contents, and
    [image.Decode] ([None] is its error). *)
Variable static : gmap string (list ascii).
Variable Decode : list ascii -> option GoImage.Image.

(** [loadImage]; [None] is a panic. *)
Definition loadImage (filename : string) : option GoImage.Image :=
  f ← static !! ("static/" +:+ filename);
  Decode f.

(** The [var] block of lines 36-49, initialised in the order written. *)
Definition initImages : option Assets :=
  whitePawn ← loadImage "pawn_white.png";
  whiteKnight ← loadImage "knight_white.png";
  whiteBishop ← loadImage "bishop_white.png";
  whiteRook ← loadImage "rook_white.png";
  whiteQueen ← loadImage "queen_white.png";
  whiteKing ← loadImage "king_white.png";
  blackPawn ← loadImage "pawn_black.png";
  blackKnight ← loadImage "knight_black.png";
  blackBishop ← loadImage "bishop_black.png";
  blackRook ← loadImage "rook_black.png";
  blackQueen ← loadImage "queen_black.png";
  blackKing ← loadImage "king_black.png";
  Some {| WhitePawnImage := whitePawn; WhiteKnightImage := whiteKnight;
          WhiteBishopImage := whiteBishop; WhiteRookImage := whiteRook;
          WhiteQueenImage := whiteQueen; WhiteKingImage := whiteKing;
          BlackPawnImage := blackPawn; BlackKnightImage := blackKnight;
          BlackBishopImage := blackBishop; BlackRookImage := blackRook;
          BlackQueenImage := blackQueen; BlackKingImage := blackKing |}.

End Startup.

(** [c.QueryParam(name)]: the first value of the parameter, or the empty
    string when there is none. *)
Definition QueryParam (query : gmap string (list string)) (name : string) : string :=
  match query !! name with
  | Some (value :: _) => value
  | _ => ""
  end.

(** The handler of [GET /render] (lines 189-193). *)
Definition handler (assets : Assets) (HTTPError_Error : Echo.HTTPError -> string)
    (Duration_String : Z -> string) (query : gmap string (list string))
    (start now : Z) : option Rendered :=
  let board := QueryParam query "board" in
  render assets HTTPError_Error Duration_String board start now.

(** The name of the file that holds the image of a piece:
    the kind, the colour, [.png]. *)
Definition kindName (p : Piece) : string :=
  match p with
  | Empty => ""
  | WhitePawn | BlackPawn => "pawn"
  | WhiteKnight | BlackKnight => "knight"
  | WhiteBishop | BlackBishop => "bishop"
  | WhiteRook | BlackRook => "rook"
  | WhiteQueen | BlackQueen => "queen"
  | WhiteKing | BlackKing => "king"
  end.

Definition colourName (p : Piece) : string :=
  match p with
  | Empty => ""
  | WhitePawn | WhiteKnight | WhiteBishop | WhiteRook | WhiteQueen | WhiteKing => "white"
  | _ => "black"
  end.

Definition fileName (p : Piece) : string :=
  kindName p +:+ "_" +:+ colourName p +:+ ".png".

(** ** The notation as the specification words it *)

Module Spec.

(** The twelve piece letters: [P N B R Q K] are white, the lowercase
    letters black. *)
Definition symbol (c : ascii) : option Piece :=
  match c with
  | "P" => Some WhitePawn | "N" => Some WhiteKnight | "B" => Some WhiteBishop
  | "R" => Some WhiteRook | "Q" => Some WhiteQueen | "K" => Some WhiteKing
  | "p" => Some BlackPawn | "n" => Some BlackKnight | "b" => Some BlackBishop
  | "r" => Some BlackRook | "q" => Some BlackQueen | "k" => Some BlackKing
  | _ => None
  end%char.

Definition isWhite (p : Piece) : bool :=
  match p with
  | WhitePawn | WhiteKnight | WhiteBishop | WhiteRook | WhiteQueen | WhiteKing => true
  | _ => false
  end.

Definition isBlack (p : Piece) : bool :=
  match p with
  | BlackPawn | BlackKnight | BlackBishop | BlackRook | BlackQueen | BlackKing => true
  | _ => false
  end.

Definition isUpper (c : ascii) : bool :=
  (65 <=? nat_of_ascii c)%nat && (nat_of_ascii c <=? 90)%nat.

Definition isLower (c : ascii) : bool :=
  (97 <=? nat_of_ascii c)%nat && (nat_of_ascii c <=? 122)%nat.

(** The digits [1] to [8] and the number each stands for. *)
Definition blanks (c : ascii) : option nat :=
  let n := nat_of_ascii c in
  if ((nat_of_ascii "1" <=? n) && (n <=? nat_of_ascii "8"))%nat
  then Some (n - nat_of_ascii "0")%nat
  else None.

Definition inAlphabet (c : ascii) : bool :=
  match symbol c, blanks c with
  | None, None => false
  | _, _ => true
  end.

(** A segment: one to eight characters of the alphabet. *)
Definition segment_ok (segment : list ascii) : bool :=
  (1 <=? length segment)%nat && (length segment <=? 8)%nat
  && forallb inAlphabet segment.

(** The structural pattern: exactly eight segments separated by [/]. *)
Definition structural (s : string) : bool :=
  let segments := GoStrings.Split (list_ascii_of_string s) "/" in
  (length segments =? 8)%nat && forallb segment_ok segments.

(** A letter is one cell of its piece, a digit [d] is [d] [Empty] cells,
    from left to right. *)
Definition expand_char (c : ascii) : list Piece :=
  match symbol c with
  | Some p => [p]
  | None => replicate (default 0%nat (blanks c)) Empty
  end.

Definition expand (segment : list ascii) : list Piece :=
  flat_map expand_char segment.

Definition segments (s : string) : list (list ascii) :=
  GoStrings.Split (list_ascii_of_string s) "/".

Definition rows_ok (s : string) : bool :=
  forallb (fun segment => (length (expand segment) =? 8)%nat) (segments s).

(** The letter of a piece, [None] for [Empty]. *)
Definition letter (p : Piece) : option ascii :=
  match p with
  | Empty => None
  | WhitePawn => Some "P" | WhiteKnight => Some "N" | WhiteBishop => Some "B"
  | WhiteRook => Some "R" | WhiteQueen => Some "Q" | WhiteKing => Some "K"
  | BlackPawn => Some "p" | BlackKnight => Some "n" | BlackBishop => Some "b"
  | BlackRook => Some "r" | BlackQueen => Some "q" | BlackKing => Some "k"
  end%char.

(** A run of [n] empty cells, written as one digit (a row has eight
    cells, so a run is at most 8 long). *)
Definition run (n : nat) : list ascii :=
  match n with
  | O => []
  | _ => [ascii_of_nat (48 + n)]
  end.

(** A row written back: maximal runs of [Empty] cells as digits, the
    letter of every other cell; [pending] counts the run being read. *)
Fixpoint serialize_row (pending : nat) (row : list Piece) : list ascii :=
  match row with
  | [] => run pending
  | p :: rest =>
      match letter p with
      | None => serialize_row (S pending) rest
      | Some c => run pending ++ c :: serialize_row 0 rest
      end
  end.

(** Modelled from the spec: the repository has no function that writes a
    Board back to notation; this one follows the specification's
    description (row-major, runs of consecutive [Empty] cells as digits,
    letters otherwise, rows separated by [/]). *)
Definition serialize (b : Board) : string :=
  string_of_list_ascii
    (GoStrings.Join (map (serialize_row 0) (Pieces b)) "/").

End Spec.

(** ** The canvas read pixel by pixel *)

(** The buffer of an [image.RGBA] holds [Stride] bytes for each of its rows
    and four for each pixel, as [image.NewRGBA] allocates it. *)
Definition RGBA_wf (p : GoImage.RGBA) : Prop :=
  (0 <= GoImage.Dx (GoImage.Rect_ p))%Z /\ (0 <= GoImage.Dy (GoImage.Rect_ p))%Z
  /\ GoImage.Stride p = (4 * GoImage.Dx (GoImage.Rect_ p))%Z
  /\ Z.of_nat (length (GoImage.Pix p))
     = (GoImage.Stride p * GoImage.Dy (GoImage.Rect_ p))%Z.

Definition canvas : GoImage.Rectangle :=
  {| GoImage.Min := GoImage.Pt 0 0; GoImage.Max := GoImage.Pt 512 512 |}.

Definition white : GoColor.RGBA :=
  {| GoColor.R := 0xff; GoColor.G := 0xff; GoColor.B := 0xff; GoColor.A := 0xff |}.

(** What lines 165-171 make of the colour [base] of the pixel [(x, y)] in
    the tile of [(row, column)]: nothing for an [Empty] cell, the image of
    the piece laid over it otherwise. *)
Definition pieceOver (assets : Assets) (b : Board) (row column x y : Z)
    (base : GoColor.RGBA) : GoColor.RGBA :=
  match Board_index b row column with
  | Some piece =>
      if Piece_eqb piece Empty then base
      else
        match pieceImages assets !! piece with
        | Some pieceImage =>
            let sx := (x - column * 64)%Z in
            let sy := (y - row * 64)%Z in
            if GoImage.In sx sy (GoImage.Bounds pieceImage)
            then GoDraw.blend GoDraw.Over (GoImage.At pieceImage sx sy) base
            else base
        | None => base
        end
  | None => base
  end.

(** What the turn of the loop for [(row, column)] makes of the colour [d]
    that the pixel [(x, y)] of its tile had before. *)
Definition cellPixel (assets : Assets) (b : Board) (row column x y : Z)
    (d : GoColor.RGBA) : GoColor.RGBA :=
  pieceOver assets b row column x y
    (if (tileColour row column =? 0)%Z then darkGray else d).

(** The colour a tile gets: dark on even parity, the background otherwise. *)
Definition tilePixel (row column : Z) : GoColor.RGBA :=
  if ((row + column) mod 2 =? 0)%Z then darkGray else white.

(** Every image of a piece is 64 by 64 pixels. *)
Definition Assets_64 (assets : Assets) : Prop :=
  forall piece pieceImage,
    pieceImages assets !! piece = Some pieceImage ->
    GoImage.Bounds pieceImage = GoImage.Rect 0 0 64 64.

(** A fully transparent colour. *)
Definition transparent : GoColor.Channels :=
  {| GoColor.r := 0; GoColor.g := 0; GoColor.b := 0; GoColor.a := 0 |}.

(** The cells in the order of the two loops. *)
Definition cells (rows columns : list Z) : list (Z * Z) :=
  row ← rows; (fun column => (row, column)) <$> columns.

(** Two families of images with the same bounds and the same colours
    inside them. *)
Definition Image_same (i1 i2 : GoImage.Image) : Prop :=
  GoImage.Bounds i1 = GoImage.Bounds i2
  /\ forall x y, GoImage.In x y (GoImage.Bounds i1) = true ->
                 GoImage.At i1 x y = GoImage.At i2 x y.

Definition Assets_same (a1 a2 : Assets) : Prop :=
  forall piece i1,
    pieceImages a1 !! piece = Some i1 ->
    exists i2, pieceImages a2 !! piece = Some i2 /\ Image_same i1 i2.

(** ** Sample images *)

(** A 64 by 64 image of one colour; outside its bounds [At] gives the
    zero colour, as the images of the standard library do. *)
Definition plainImage (c : GoColor.Channels) : GoImage.Image :=
  {| GoImage.Bounds := GoImage.Rect 0 0 64 64;
     GoImage.At := fun x y =>
       if GoImage.In x y (GoImage.Rect 0 0 64 64) then c else transparent |}.

(** The same picture whose [At] does not look at the bounds. *)
Definition plainImage' (c : GoColor.Channels) : GoImage.Image :=
  {| GoImage.Bounds := GoImage.Rect 0 0 64 64;
     GoImage.At := fun _ _ => c |}.

Definition plainAssets (image : GoColor.Channels -> GoImage.Image) : Assets :=
  {| WhitePawnImage := image (GoColor.Gray16_RGBA 0xf000);
     WhiteKnightImage := image (GoColor.Gray16_RGBA 0xe000);
     WhiteBishopImage := image (GoColor.Gray16_RGBA 0xd000);
     WhiteRookImage := image (GoColor.Gray16_RGBA 0xc000);
     WhiteQueenImage := image (GoColor.Gray16_RGBA 0xb000);
     WhiteKingImage := image (GoColor.Gray16_RGBA 0xa000);
     BlackPawnImage := image (GoColor.Gray16_RGBA 0x6000);
     BlackKnightImage := image (GoColor.Gray16_RGBA 0x5000);
     BlackBishopImage := image (GoColor.Gray16_RGBA 0x4000);
     BlackRookImage := image (GoColor.Gray16_RGBA 0x3000);
     BlackQueenImage := image (GoColor.Gray16_RGBA 0x2000);
     BlackKingImage := image transparent |}.

(** The starting position. *)
Definition startBoard : Board :=
  {| Pieces :=
       [[BlackRook; BlackKnight; BlackBishop; BlackQueen;
         BlackKing; BlackBishop; BlackKnight; BlackRook];
        replicate 8 BlackPawn;
        replicate 8 Empty; replicate 8 Empty; replicate 8 Empty; replicate 8 Empty;
        replicate 8 WhitePawn;
        [WhiteRook; WhiteKnight; WhiteBishop; WhiteQueen;
         WhiteKing; WhiteBishop; WhiteKnight; WhiteRook]] |}.

(** * Proofs *)

(** ** The pattern matcher decides the language of the pattern *)

Section RegexpFacts.
Import GoRegexp.

Lemma Matches_NoMatch s : Matches NoMatch s <-> False.
Proof. split; [inversion 1 | tauto]. Qed.

Lemma Matches_EmptyMatch s : Matches EmptyMatch s <-> s = [].
Proof. split; [inversion 1; reflexivity | intros ->; constructor]. Qed.

Lemma Matches_Literal c s : Matches (Literal c) s <-> s = [c].
Proof. split; [inversion 1; reflexivity | intros ->; constructor]. Qed.

Lemma Matches_CharClass ranges s :
  Matches (CharClass ranges) s <-> exists c, s = [c] /\ inClass ranges c = true.
Proof.
  split.
  - inversion 1; subst; eauto.
  - intros (c & -> & Hc). by constructor.
Qed.

Lemma Matches_Concat r1 r2 s :
  Matches (Concat r1 r2) s <->
  exists s1 s2, s = s1 ++ s2 /\ Matches r1 s1 /\ Matches r2 s2.
Proof.
  split.
  - inversion 1; subst; eauto.
  - intros (s1 & s2 & -> & H1 & H2). by constructor.
Qed.

Lemma Matches_Alternate r1 r2 s :
  Matches (Alternate r1 r2) s <-> Matches r1 s \/ Matches r2 s.
Proof.
  split.
  - inversion 1; subst; auto.
  - intros [H | H]; [by apply MAltL | by apply MAltR].
Qed.

Lemma nullable_Matches r : nullable r = true <-> Matches r [].
Proof.
  induction r as [| | c | ranges | r1 IH1 r2 IH2 | r1 IH1 r2 IH2]; simpl.
  - rewrite Matches_NoMatch. split; [discriminate | tauto].
  - rewrite Matches_EmptyMatch. tauto.
  - rewrite Matches_Literal. split; discriminate.
  - rewrite Matches_CharClass. split; [discriminate |].
    intros (c & Hc & _). discriminate.
  - rewrite andb_true_iff, IH1, IH2, Matches_Concat. split.
    + intros [H1 H2]. exists [], []. auto.
    + intros (s1 & s2 & Hs & H1 & H2).
      symmetry in Hs. apply app_eq_nil in Hs as [-> ->]. auto.
  - rewrite orb_true_iff, IH1, IH2, Matches_Alternate. tauto.
Qed.

Lemma deriv_Matches c r : forall s, Matches (deriv c r) s <-> Matches r (c :: s).
Proof.
  induction r as [| | c' | ranges | r1 IH1 r2 IH2 | r1 IH1 r2 IH2];
    intros s; simpl.
  - rewrite !Matches_NoMatch. tauto.
  - rewrite Matches_NoMatch, Matches_EmptyMatch. split; [tauto | discriminate].
  - rewrite Matches_Literal. destruct (Ascii.eqb_spec c' c) as [-> | Hne].
    + rewrite Matches_EmptyMatch. split; [by intros -> | by intros [= ->]].
    + rewrite Matches_NoMatch. split; [tauto | intros [= -> _]; by apply Hne].
  - rewrite Matches_CharClass. destruct (inClass ranges c) eqn:Hc.
    + rewrite Matches_EmptyMatch. split.
      * intros ->. eauto.
      * by intros (c0 & [= -> ->] & _).
    + rewrite Matches_NoMatch. split; [tauto |].
      intros (c0 & [= -> ->] & Hc0). congruence.
  - assert (Hleft : Matches (Concat (deriv c r1) r2) s <->
                    exists s1 s2, s = s1 ++ s2 /\ Matches r1 (c :: s1) /\ Matches r2 s2).
    { rewrite Matches_Concat. by setoid_rewrite IH1. }
    rewrite (Matches_Concat r1 r2).
    destruct (nullable r1) eqn:Hn.
    + apply nullable_Matches in Hn.
      rewrite Matches_Alternate, Hleft, IH2. split.
      * intros [(s1 & s2 & -> & H1 & H2) | H2].
        -- exists (c :: s1), s2. auto.
        -- exists [], (c :: s). auto.
      * intros (s1 & s2 & Hs & H1 & H2). destruct s1 as [| c0 s1]; simpl in Hs.
        -- subst s2. by right.
        -- injection Hs as <- ->. left. eauto.
    + rewrite Hleft. split.
      * intros (s1 & s2 & -> & H1 & H2). exists (c :: s1), s2. auto.
      * intros (s1 & s2 & Hs & H1 & H2). destruct s1 as [| c0 s1]; simpl in Hs.
        -- apply nullable_Matches in H1. congruence.
        -- injection Hs as <- ->. eauto.
  - rewrite !Matches_Alternate, IH1, IH2. tauto.
Qed.

Lemma MatchString_Matches re s : MatchString re s = true <-> Matches re s.
Proof.
  unfold MatchString. revert re.
  induction s as [| c s IH]; intros re; simpl.
  - apply nullable_Matches.
  - rewrite IH. apply deriv_Matches.
Qed.

(** Counted repetition of a character class. *)

Lemma Matches_Times_class ranges n s :
  Matches (Times n (CharClass ranges)) s <->
  length s = n /\ forallb (inClass ranges) s = true.
Proof.
  revert s. induction n as [| n IH]; intros s; simpl.
  - rewrite Matches_EmptyMatch. split.
    + by intros ->.
    + intros [Hl _]. by destruct s.
  - rewrite Matches_Concat. setoid_rewrite Matches_CharClass.
    setoid_rewrite IH. split.
    + intros (s1 & s2 & -> & (c & -> & Hc) & Hl & Hall). simpl.
      rewrite Hc, Hall. auto.
    + destruct s as [| c s]; simpl; [intros [[=] _] |].
      intros [[= Hl] [Hc Hall]%andb_true_iff].
      exists [c], s. eauto 6.
Qed.

Lemma Matches_UpTo_class ranges k s :
  Matches (UpTo k (CharClass ranges)) s <->
  (length s <= k)%nat /\ forallb (inClass ranges) s = true.
Proof.
  revert s. induction k as [| k IH]; intros s; simpl.
  - rewrite Matches_EmptyMatch. split.
    + by intros ->.
    + intros [Hl _]. destruct s; [done | simpl in Hl; lia].
  - rewrite Matches_Alternate, Matches_Concat, Matches_EmptyMatch.
    setoid_rewrite Matches_CharClass. setoid_rewrite IH. split.
    + intros [(s1 & s2 & -> & (c & -> & Hc) & Hl & Hall) | ->]; simpl.
      * rewrite Hc, Hall. split; [lia | done].
      * split; [lia | done].
    + destruct s as [| c s]; simpl; [auto |].
      intros [Hl [Hc Hall]%andb_true_iff]. left.
      exists [c], s. split; [done |]. split; [eauto |]. split; [lia | done].
Qed.

Lemma Matches_Repeat_class ranges min max s :
  (min <= max)%nat ->
  Matches (Repeat min max (CharClass ranges)) s <->
  (min <= length s <= max)%nat /\ forallb (inClass ranges) s = true.
Proof.
  intros Hle. unfold Repeat. rewrite Matches_Concat.
  setoid_rewrite Matches_Times_class. setoid_rewrite Matches_UpTo_class.
  split.
  - intros (s1 & s2 & -> & [Hl1 H1] & [Hl2 H2]).
    rewrite length_app, forallb_app, H1, H2. split; [lia | done].
  - intros [Hl Hall].
    exists (take min s), (drop min s).
    rewrite take_drop. split; [done |].
    rewrite <- (take_drop min s), forallb_app in Hall.
    apply andb_true_iff in Hall as [H1 H2].
    rewrite length_take, length_drop. repeat split; [lia | done | lia | done].
Qed.

Lemma Matches_Concat_assoc r1 r2 r3 s :
  Matches (Concat (Concat r1 r2) r3) s <-> Matches (Concat r1 (Concat r2 r3)) s.
Proof.
  rewrite !Matches_Concat. split.
  - intros (s12 & s3 & -> & (s1 & s2 & -> & H1 & H2)%Matches_Concat & H3).
    exists s1, (s2 ++ s3). rewrite Matches_Concat, app_assoc. eauto 8.
  - intros (s1 & s23 & -> & H1 & (s2 & s3 & -> & H2 & H3)%Matches_Concat).
    exists (s1 ++ s2), s3. rewrite Matches_Concat, app_assoc. eauto 8.
Qed.

End RegexpFacts.

(** ** [Split] and [Join] *)

Section SplitFacts.
Import GoStrings.
Variable sep : ascii.

Lemma Split_nonempty s : Split s sep <> [].
Proof.
  destruct s as [| c s]; simpl; [done |].
  destruct (Ascii.eqb c sep); [done |]. by destruct (Split s sep).
Qed.

Lemma Join_cons e rest :
  rest <> [] -> Join (e :: rest) sep = e ++ sep :: Join rest sep.
Proof. by destruct rest. Qed.

Lemma Join_Split s : Join (Split s sep) sep = s.
Proof.
  induction s as [| c s IH]; simpl; [done |].
  destruct (Ascii.eqb_spec c sep) as [-> | Hne].
  - rewrite Join_cons by apply Split_nonempty. simpl. by rewrite IH.
  - pose proof (Split_nonempty s) as Hn.
    destruct (Split s sep) as [| segment rest]; [done |].
    destruct rest; simpl in *; by rewrite <- IH.
Qed.

Lemma Split_without s : Forall (fun segment => sep ∉ segment) (Split s sep).
Proof.
  induction s as [| c s IH]; simpl.
  - repeat constructor. by intros ?%elem_of_nil.
  - destruct (Ascii.eqb_spec c sep) as [-> | Hne].
    + constructor; [by intros ?%elem_of_nil | done].
    + destruct (Split s sep) as [| segment rest].
      * repeat constructor. intros [-> | ?%elem_of_nil]%elem_of_cons; done.
      * inversion IH as [| ? ? Hseg Hrest]; subst. constructor; [| done].
        intros [-> | ?]%elem_of_cons; done.
Qed.

Lemma Split_segment segment s :
  sep ∉ segment -> Split (segment ++ sep :: s) sep = segment :: Split s sep.
Proof.
  induction segment as [| c segment IH]; intros Hnot; simpl.
  - by rewrite Ascii.eqb_refl.
  - apply not_elem_of_cons in Hnot as [Hc Hnot].
    destruct (Ascii.eqb_spec c sep) as [-> | _]; [done |].
    by rewrite IH.
Qed.

Lemma Split_single segment : sep ∉ segment -> Split segment sep = [segment].
Proof.
  induction segment as [| c segment IH]; intros Hnot; simpl; [done |].
  apply not_elem_of_cons in Hnot as [Hc Hnot].
  destruct (Ascii.eqb_spec c sep) as [-> | _]; [done |].
  by rewrite IH.
Qed.

Lemma Split_Join segments :
  segments <> [] ->
  Forall (fun segment => sep ∉ segment) segments ->
  Split (Join segments sep) sep = segments.
Proof.
  induction segments as [| e rest IH]; intros Hne Hall; [done |].
  inversion Hall as [| ? ? He Hrest]; subst.
  destruct rest as [| e' rest'].
  - simpl. by apply Split_single.
  - rewrite Join_cons by done. rewrite Split_segment by done.
    by rewrite IH.
Qed.

End SplitFacts.

(** ** [FEN] is the structural pattern *)

Section FENFacts.
Import GoRegexp GoStrings.

Lemma forallb_pointwise {A} (f g : A -> bool) (l : list A) :
  (forall x, f x = g x) -> forallb f l = forallb g l.
Proof. intros Hfg. induction l as [| x l IH]; simpl; [done |]. by rewrite Hfg, IH. Qed.

Lemma inClass_inAlphabet c : inClass FEN_ranges c = Spec.inAlphabet c.
Proof.
  destruct c as [[] [] [] [] [] [] [] []]; reflexivity.
Qed.

Lemma inAlphabet_not_slash c : Spec.inAlphabet c = true -> c <> "/"%char.
Proof. intros Hc ->. discriminate. Qed.

Lemma segment_ok_without segment :
  Spec.segment_ok segment = true -> "/"%char ∉ segment.
Proof.
  unfold Spec.segment_ok. intros [_ Hall]%andb_true_iff Hin.
  rewrite forallb_forall in Hall.
  apply list_elem_of_In, Hall in Hin. discriminate.
Qed.

Lemma Matches_segment s :
  Matches (Repeat 1 8 FEN_class) s <-> Spec.segment_ok s = true.
Proof.
  unfold FEN_class. rewrite Matches_Repeat_class by lia.
  unfold Spec.segment_ok.
  rewrite !andb_true_iff, !Nat.leb_le.
  rewrite (forallb_pointwise _ _ s inClass_inAlphabet). tauto.
Qed.

Lemma Matches_FEN_rows_S n s :
  Matches (FEN_rows (S n)) s <->
  exists segment rest,
    s = segment ++ "/"%char :: rest /\ Spec.segment_ok segment = true
    /\ Matches (FEN_rows n) rest.
Proof.
  unfold FEN_rows. simpl Times.
  rewrite Matches_Concat_assoc, Matches_Concat_assoc, Matches_Concat.
  setoid_rewrite Matches_segment. split.
  - intros (s1 & s2 & -> & H1 & (s3 & s4 & -> & ->%Matches_Literal & H4)%Matches_Concat).
    eauto.
  - intros (segment & rest & -> & Hok & Hrest).
    exists segment, ("/"%char :: rest). split; [done |]. split; [done |].
    apply Matches_Concat. exists ["/"%char], rest.
    split; [done |]. split; [constructor | done].
Qed.

Lemma Matches_FEN_rows n : forall s,
  Matches (FEN_rows n) s <->
  length (Split s "/") = S n /\ forallb Spec.segment_ok (Split s "/") = true.
Proof.
  induction n as [| n IH]; intros s.
  - unfold FEN_rows. simpl Times. rewrite Matches_Concat.
    setoid_rewrite Matches_EmptyMatch. setoid_rewrite Matches_segment. split.
    + intros (s1 & s2 & -> & -> & Hok). simpl.
      rewrite Split_single by by apply segment_ok_without.
      simpl. by rewrite Hok.
    + intros [Hl Hall]. exists [], s. split; [done |]. split; [done |].
      pose proof (Join_Split "/" s) as Hj.
      destruct (Split s "/") as [| segment [| ? ?]]; try done.
      simpl in *. subst. by rewrite andb_true_r in Hall.
  - rewrite Matches_FEN_rows_S. setoid_rewrite IH. split.
    + intros (segment & rest & -> & Hok & Hl & Hall).
      rewrite Split_segment by by apply segment_ok_without.
      simpl. by rewrite Hl, Hok, Hall.
    + intros [Hl Hall].
      pose proof (Join_Split "/" s) as Hj.
      pose proof (Split_without "/" s) as Hw.
      destruct (Split s "/") as [| segment rest]; [done |].
      simpl in Hl, Hall. apply andb_true_iff in Hall as [Hok Hall].
      injection Hl as Hl.
      assert (Hne : rest <> []) by (intros ->; done).
      rewrite Join_cons in Hj by done.
      inversion Hw as [| ? ? _ Hwr]; subst.
      exists segment, (Join rest "/"). split; [done |]. split; [done |].
      by rewrite Split_Join.
Qed.

Lemma FEN_structural s :
  MatchString FEN (list_ascii_of_string s) = Spec.structural s.
Proof.
  apply eq_true_iff_eq. rewrite MatchString_Matches.
  unfold FEN. rewrite Matches_FEN_rows.
  unfold Spec.structural. by rewrite andb_true_iff, Nat.eqb_eq.
Qed.

End FENFacts.

(** ** [validate] computes the expansion of the notation *)

Section ValidateFacts.
Import GoStrings.

Lemma validate_rune_expand rowPieces char :
  Spec.inAlphabet char = true ->
  validate_rune rowPieces char = rowPieces ++ Spec.expand_char char.
Proof.
  destruct char as [[] [] [] [] [] [] [] []]; intros H;
    try discriminate H; reflexivity.
Qed.

Lemma validate_segment_expand segment : forall rowPieces,
  forallb Spec.inAlphabet segment = true ->
  fold_left validate_rune segment rowPieces = rowPieces ++ Spec.expand segment.
Proof.
  induction segment as [| c segment IH]; intros rowPieces Hall; simpl.
  - by rewrite app_nil_r.
  - apply andb_true_iff in Hall as [Hc Hall].
    rewrite validate_rune_expand by done. rewrite IH by done.
    unfold Spec.expand. simpl. by rewrite app_assoc.
Qed.

Lemma copy_same_length {A} (dst src : list A) :
  length dst = length src -> copy dst src = src.
Proof.
  intros Hl. unfold copy.
  rewrite Hl, firstn_all, drop_ge by lia. apply app_nil_r.
Qed.

Lemma insert_middle {A} (l1 l2 : list A) (x y : A) :
  <[length l1 := y]> (l1 ++ x :: l2) = l1 ++ y :: l2.
Proof.
  rewrite insert_app_r_alt by lia. by rewrite Nat.sub_diag.
Qed.

Lemma validate_rows_expand segments : forall written pending,
  length pending = length segments ->
  Forall (fun row => length row = 8%nat) pending ->
  forallb (forallb Spec.inAlphabet) segments = true ->
  validate_rows (length written) segments {| Pieces := written ++ pending |} =
    if forallb (fun segment => (length (Spec.expand segment) =? 8)%nat) segments
    then Returned (Some {| Pieces := written ++ map Spec.expand segments |}) None
    else InvalidFEN.
Proof.
  induction segments as [| segment rest IH]; intros written pending Hl Hrows Hall.
  - destruct pending; [| done]. done.
  - destruct pending as [| dst pending]; [done |].
    injection Hl as Hl. inversion Hrows as [| ? ? Hdst Hrows']; subst.
    simpl in Hall. apply andb_true_iff in Hall as [Hseg Hall].
    cbn [validate_rows forallb map Pieces].
    rewrite validate_segment_expand by done. rewrite app_nil_l.
    destruct (length (Spec.expand segment) =? 8)%nat eqn:Hlen; simpl; [| done].
    apply Nat.eqb_eq in Hlen.
    rewrite list_lookup_middle by done.
    rewrite insert_middle.
    rewrite copy_same_length by congruence.
    specialize (IH (written ++ [Spec.expand segment]) pending Hl Hrows' Hall).
    rewrite length_app in IH. simpl in IH.
    rewrite Nat.add_1_r, <- !app_assoc in IH. exact IH.
Qed.

Lemma segment_ok_alphabet segments :
  forallb Spec.segment_ok segments = true ->
  forallb (forallb Spec.inAlphabet) segments = true.
Proof.
  rewrite !forallb_forall. intros H segment Hin.
  specialize (H segment Hin). unfold Spec.segment_ok in H.
  by apply andb_true_iff in H as [_ H].
Qed.

Lemma validate_structural s :
  Spec.structural s = true ->
  validate s =
    if Spec.rows_ok s
    then Returned (Some {| Pieces := map Spec.expand (Spec.segments s) |}) None
    else InvalidFEN.
Proof.
  intros Hs. unfold validate. rewrite FEN_structural, Hs. simpl.
  unfold Spec.structural in Hs. apply andb_true_iff in Hs as [Hl Hall].
  apply Nat.eqb_eq in Hl.
  apply (validate_rows_expand _ [] (replicate 8 (replicate 8 Empty))).
  - by rewrite Hl.
  - by repeat constructor.
  - by apply segment_ok_alphabet.
Qed.

Lemma validate_not_structural s :
  Spec.structural s = false -> validate s = InvalidFEN.
Proof. intros Hs. unfold validate. by rewrite FEN_structural, Hs. Qed.

(** A returned [Board] is complete, and comes with no error. *)
Lemma validate_cases s :
  (exists b, validate s = Returned (Some b) None /\ Board_shape b
             /\ Spec.structural s = true /\ Spec.rows_ok s = true
             /\ Pieces b = map Spec.expand (Spec.segments s))
  \/ validate s = InvalidFEN.
Proof.
  destruct (Spec.structural s) eqn:Hs.
  - rewrite validate_structural by done.
    destruct (Spec.rows_ok s) eqn:Hr; [left | by right].
    eexists. split; [done |]. split; [| done].
    unfold Spec.structural in Hs. apply andb_true_iff in Hs as [Hl _].
    apply Nat.eqb_eq in Hl. unfold Spec.rows_ok in Hr.
    rewrite forallb_forall in Hr. split; simpl.
    + by rewrite length_map.
    + apply Forall_forall. intros row [segment [-> Hin]]%list_elem_of_fmap.
      apply Nat.eqb_eq, Hr. by apply list_elem_of_In.
  - right. by apply validate_not_structural.
Qed.

End ValidateFacts.

(** ** Writing a Board back to notation *)

Section SerializeFacts.
Import GoStrings.

Lemma expand_app s1 s2 : Spec.expand (s1 ++ s2) = Spec.expand s1 ++ Spec.expand s2.
Proof. unfold Spec.expand. apply flat_map_app. Qed.

Lemma expand_run n : (n <= 8)%nat -> Spec.expand (Spec.run n) = replicate n Empty.
Proof.
  intros Hn. do 9 (destruct n as [| n]; [reflexivity |]). lia.
Qed.

Lemma run_alphabet n : (n <= 8)%nat -> forallb Spec.inAlphabet (Spec.run n) = true.
Proof.
  intros Hn. do 9 (destruct n as [| n]; [reflexivity |]). lia.
Qed.

Lemma length_run n : (length (Spec.run n) <= 1)%nat /\ (n = 0%nat \/ length (Spec.run n) = 1%nat).
Proof. destruct n; simpl; lia. Qed.

Lemma letter_symbol p c : Spec.letter p = Some c -> Spec.symbol c = Some p.
Proof. destruct p; intros [= <-]; reflexivity. Qed.

Lemma letter_None p : Spec.letter p = None -> p = Empty.
Proof. by destruct p. Qed.

Lemma expand_serialize_row row : forall pending,
  (pending + length row <= 8)%nat ->
  Spec.expand (Spec.serialize_row pending row) = replicate pending Empty ++ row.
Proof.
  induction row as [| p row IH]; intros pending Hle; simpl in *.
  - rewrite expand_run by lia. by rewrite app_nil_r.
  - destruct (Spec.letter p) as [c |] eqn:Hp.
    + rewrite expand_app, expand_run by lia.
      change (c :: Spec.serialize_row 0 row) with ([c] ++ Spec.serialize_row 0 row).
      rewrite expand_app, IH by (simpl; lia).
      unfold Spec.expand, Spec.expand_char. simpl.
      by rewrite (letter_symbol p c Hp).
    + apply letter_None in Hp as ->. rewrite IH by lia.
      change (Empty :: row) with ([Empty] ++ row).
      rewrite app_assoc. f_equal.
      change [Empty] with (replicate 1 Empty).
      rewrite <- replicate_add. f_equal. lia.
Qed.

Lemma serialize_row_alphabet row : forall pending,
  (pending + length row <= 8)%nat ->
  forallb Spec.inAlphabet (Spec.serialize_row pending row) = true.
Proof.
  induction row as [| p row IH]; intros pending Hle; simpl in *.
  - apply run_alphabet. lia.
  - destruct (Spec.letter p) as [c |] eqn:Hp.
    + rewrite forallb_app, run_alphabet by lia. simpl.
      rewrite IH by (simpl; lia). rewrite andb_true_r.
      unfold Spec.inAlphabet. by rewrite (letter_symbol p c Hp).
    + apply IH. lia.
Qed.

Lemma serialize_row_length row : forall pending,
  (length (Spec.serialize_row pending row) <= length (Spec.run pending) + length row)%nat
  /\ ((0 < pending + length row)%nat -> (1 <= length (Spec.serialize_row pending row))%nat).
Proof.
  induction row as [| p row IH]; intros pending; simpl.
  - pose proof (length_run pending). lia.
  - destruct (Spec.letter p) as [c |] eqn:Hp.
    + rewrite length_app. simpl. destruct (IH 0%nat) as [IH1 _]. simpl in IH1. lia.
    + destruct (IH (S pending)) as [IH1 IH2]. simpl in IH1. split; [| lia].
      pose proof (length_run pending). lia.
Qed.

Lemma serialize_row_ok row :
  length row = 8%nat -> Spec.segment_ok (Spec.serialize_row 0 row) = true.
Proof.
  intros Hl. unfold Spec.segment_ok.
  destruct (serialize_row_length row 0) as [H1 H2]. simpl in H1.
  rewrite serialize_row_alphabet by (simpl; lia).
  rewrite !andb_true_iff, !Nat.leb_le. split; [split |]; [| lia | done].
  apply H2. lia.
Qed.

Lemma segments_serialize b :
  Board_shape b ->
  Spec.segments (Spec.serialize b) = map (Spec.serialize_row 0) (Pieces b).
Proof.
  intros [Hl Hrows]. unfold Spec.segments, Spec.serialize.
  rewrite list_ascii_of_string_of_list_ascii. apply Split_Join.
  - destruct (Pieces b); done.
  - apply Forall_forall. intros segment [row [-> Hin]]%list_elem_of_fmap.
    apply segment_ok_without, serialize_row_ok.
    rewrite Forall_forall in Hrows. by apply Hrows.
Qed.

Lemma validate_serialize b :
  Board_shape b -> validate (Spec.serialize b) = Returned (Some b) None.
Proof.
  intros Hb. pose proof (segments_serialize b Hb) as Hseg.
  destruct Hb as [Hl Hrows]. rewrite Forall_forall in Hrows.
  assert (Hs : Spec.structural (Spec.serialize b) = true).
  { unfold Spec.structural. fold (Spec.segments (Spec.serialize b)).
    rewrite Hseg, length_map, Hl. simpl.
    apply forallb_forall. intros segment Hin.
    apply list_elem_of_In, list_elem_of_fmap in Hin as [row [-> Hin]].
    apply serialize_row_ok. by apply Hrows. }
  assert (Hexp : map Spec.expand (map (Spec.serialize_row 0) (Pieces b)) = Pieces b).
  { rewrite map_map. rewrite <- (map_id (Pieces b)) at 2.
    apply map_ext_in. intros row Hin.
    rewrite expand_serialize_row; [done |].
    apply list_elem_of_In, Hrows in Hin. simpl. lia. }
  rewrite validate_structural by done.
  assert (Hr : Spec.rows_ok (Spec.serialize b) = true).
  { unfold Spec.rows_ok. rewrite Hseg. apply forallb_forall.
    intros segment Hin.
    apply list_elem_of_In, list_elem_of_fmap in Hin as [row [-> Hin]].
    rewrite expand_serialize_row by (apply Hrows in Hin; simpl; lia).
    simpl. apply Nat.eqb_eq. by apply Hrows. }
  rewrite Hr, Hseg, Hexp. by destruct b.
Qed.

End SerializeFacts.

(** ** Rectangles and the pixel buffer *)

Section ImageFacts.
Import GoImage.

Lemma In_iff x y rc :
  In x y rc = true <->
  (X (Min rc) <= x < X (Max rc) /\ Y (Min rc) <= y < Y (Max rc))%Z.
Proof.
  unfold In. rewrite !andb_true_iff, !Z.leb_le, !Z.ltb_lt. tauto.
Qed.

Lemma In_false_iff x y rc :
  In x y rc = false <->
  ~ (X (Min rc) <= x < X (Max rc) /\ Y (Min rc) <= y < Y (Max rc))%Z.
Proof. by rewrite <- not_true_iff_false, In_iff. Qed.

Lemma Empty_iff rc :
  Rectangle_Empty rc = true <-> (X (Max rc) <= X (Min rc) \/ Y (Max rc) <= Y (Min rc))%Z.
Proof. unfold Rectangle_Empty. by rewrite orb_true_iff, !Z.leb_le. Qed.

Lemma In_Empty x y rc : Rectangle_Empty rc = true -> In x y rc = false.
Proof. rewrite Empty_iff, In_false_iff. lia. Qed.

Lemma In_Intersect x y rc s :
  In x y (Intersect rc s) = In x y rc && In x y s.
Proof.
  apply eq_true_iff_eq. rewrite andb_true_iff, !In_iff. unfold Intersect.
  repeat match goal with
         | |- context [(?u <? ?v)%Z] => destruct (Z.ltb_spec u v)
         end;
    match goal with
    | |- context [Rectangle_Empty ?rc'] => destruct (Rectangle_Empty rc') eqn:He
    end;
    try (apply Empty_iff in He); try (apply not_true_iff_false in He;
                                      rewrite Empty_iff in He);
    simpl in *; lia.
Qed.

Lemma In_Add x y rc p :
  In x y (Add rc p) = In (x - X p) (y - Y p) rc.
Proof.
  apply eq_true_iff_eq. rewrite !In_iff. simpl. lia.
Qed.

Lemma Rect_ordered x0 y0 x1 y1 :
  (x0 <= x1)%Z -> (y0 <= y1)%Z ->
  Rect x0 y0 x1 y1 = {| Min := Pt x0 y0; Max := Pt x1 y1 |}.
Proof.
  intros Hx Hy. unfold Rect.
  destruct (Z.ltb_spec x1 x0); [lia |]. destruct (Z.ltb_spec y1 y0); [lia |].
  done.
Qed.

(** The bytes of different pixels lie apart. *)

Lemma PixOffset_bounds p x y :
  RGBA_wf p -> In x y (Rect_ p) = true ->
  (0 <= PixOffset p x y)%Z
  /\ (PixOffset p x y + 3 < Z.of_nat (length (Pix p)))%Z.
Proof.
  intros (Hdx & Hdy & Hs & Hl) Hin%In_iff. unfold PixOffset.
  rewrite Hl, Hs. unfold Dx, Dy in *. nia.
Qed.

Lemma PixOffset_apart p x y x' y' :
  RGBA_wf p -> In x y (Rect_ p) = true -> In x' y' (Rect_ p) = true ->
  (x, y) <> (x', y') ->
  (PixOffset p x y + 4 <= PixOffset p x' y'
   \/ PixOffset p x' y' + 4 <= PixOffset p x y)%Z.
Proof.
  intros (Hdx & Hdy & Hs & Hl) Hin%In_iff Hin'%In_iff Hne. unfold PixOffset.
  rewrite Hs. unfold Dx, Dy in *.
  destruct (Z.lt_total y y') as [Hy | [-> | Hy]].
  - left. nia.
  - assert (x <> x') by congruence. lia.
  - right. nia.
Qed.

Lemma lookup_four (l : list Z) (i j : nat) (c0 c1 c2 c3 : Z) :
  (i + 3 < length l)%nat ->
  <[(i + 3)%nat := c3]> (<[(i + 2)%nat := c2]> (<[(i + 1)%nat := c1]> (<[i := c0]> l))) !! j =
    if decide (j = i) then Some c0
    else if decide (j = (i + 1)%nat) then Some c1
    else if decide (j = (i + 2)%nat) then Some c2
    else if decide (j = (i + 3)%nat) then Some c3
    else l !! j.
Proof.
  intros Hl. rewrite !list_lookup_insert, !length_insert.
  repeat case_decide; try lia; done.
Qed.

Lemma SetRGBA_Rect p x y c : Rect_ (SetRGBA p x y c) = Rect_ p.
Proof. unfold SetRGBA. by destruct (In x y (Rect_ p)). Qed.

Lemma SetRGBA_Stride p x y c : Stride (SetRGBA p x y c) = Stride p.
Proof. unfold SetRGBA. by destruct (In x y (Rect_ p)). Qed.

Lemma SetRGBA_length p x y c : length (Pix (SetRGBA p x y c)) = length (Pix p).
Proof.
  unfold SetRGBA. destruct (In x y (Rect_ p)); simpl; [| done].
  by rewrite !length_insert.
Qed.

Lemma SetRGBA_wf p x y c : RGBA_wf p -> RGBA_wf (SetRGBA p x y c).
Proof.
  unfold RGBA_wf.
  by rewrite SetRGBA_Rect, SetRGBA_Stride, SetRGBA_length.
Qed.

Lemma PixOffset_SetRGBA p x y c x' y' :
  PixOffset (SetRGBA p x y c) x' y' = PixOffset p x' y'.
Proof. unfold PixOffset. by rewrite SetRGBA_Rect, SetRGBA_Stride. Qed.

Lemma RGBAAt_SetRGBA_eq p x y c :
  RGBA_wf p -> In x y (Rect_ p) = true -> RGBAAt (SetRGBA p x y c) x y = c.
Proof.
  intros Hwf Hin. destruct (PixOffset_bounds p x y Hwf Hin) as [H0 H3].
  unfold RGBAAt. rewrite SetRGBA_Rect, Hin, PixOffset_SetRGBA. simpl.
  unfold SetRGBA, byteAt. rewrite Hin. simpl.
  rewrite !lookup_four by lia.
  repeat case_decide; try lia. by destruct c.
Qed.

Lemma RGBAAt_SetRGBA_ne p x y c x' y' :
  RGBA_wf p -> (x, y) <> (x', y') ->
  RGBAAt (SetRGBA p x y c) x' y' = RGBAAt p x' y'.
Proof.
  intros Hwf Hne.
  destruct (In x y (Rect_ p)) eqn:Hin; [| unfold SetRGBA; by rewrite Hin].
  unfold RGBAAt. rewrite SetRGBA_Rect, PixOffset_SetRGBA.
  destruct (In x' y' (Rect_ p)) eqn:Hin'; simpl; [| done].
  destruct (PixOffset_bounds p x y Hwf Hin) as [H0 H3].
  destruct (PixOffset_bounds p x' y' Hwf Hin') as [H0' H3'].
  pose proof (PixOffset_apart p x y x' y' Hwf Hin Hin' Hne) as Hap.
  unfold SetRGBA, byteAt. rewrite Hin. simpl.
  rewrite !lookup_four by lia.
  repeat case_decide; try lia. done.
Qed.

(** A fresh image is transparent black. *)

Lemma NewRGBA_wf rc : (0 <= Dx rc)%Z -> (0 <= Dy rc)%Z -> RGBA_wf (NewRGBA rc).
Proof.
  intros Hx Hy. unfold RGBA_wf, NewRGBA. simpl.
  rewrite length_replicate. repeat split; try done. nia.
Qed.

Lemma NewRGBA_Rect rc : Rect_ (NewRGBA rc) = rc.
Proof. reflexivity. Qed.

Lemma RGBAAt_NewRGBA rc x y :
  RGBAAt (NewRGBA rc) x y =
    {| GoColor.R := 0; GoColor.G := 0; GoColor.B := 0; GoColor.A := 0 |}.
Proof.
  assert (Hz : forall i, byteAt (NewRGBA rc) i = 0%Z).
  { intros i. unfold byteAt, NewRGBA. simpl.
    destruct (replicate _ 0%Z !! i) as [z |] eqn:Hi; [| done].
    by apply lookup_replicate in Hi as [-> _]. }
  unfold RGBAAt. destruct (In x y _); simpl; [| done].
  by rewrite !Hz.
Qed.

(** Two buffers that show the same pixels hold the same bytes. *)

Lemma byte_of_pixel p (i : nat) :
  RGBA_wf p -> (i < length (Pix p))%nat ->
  exists x y (k : nat),
    In x y (Rect_ p) = true /\ (k < 4)%nat
    /\ i = (Z.to_nat (PixOffset p x y) + k)%nat
    /\ (0 <= PixOffset p x y)%Z.
Proof.
  intros (Hdx & Hdy & Hs & Hl) Hi.
  set (W := Dx (Rect_ p)) in *. set (H := Dy (Rect_ p)) in *.
  set (iz := Z.of_nat i).
  assert (Hiz : (0 <= iz < 4 * W * H)%Z) by (unfold iz; lia).
  assert (HW : (0 < W)%Z) by nia.
  set (j := (iz / 4)%Z). set (k := (iz mod 4)%Z).
  assert (Hjk : (iz = 4 * j + k /\ 0 <= k < 4)%Z).
  { unfold j, k. pose proof (Z.div_mod iz 4). pose proof (Z.mod_pos_bound iz 4). lia. }
  set (dx := (j mod W)%Z). set (dy := (j / W)%Z).
  assert (Hd : (j = W * dy + dx /\ 0 <= dx < W)%Z).
  { unfold dx, dy. pose proof (Z.div_mod j W). pose proof (Z.mod_pos_bound j W). lia. }
  assert (Hdy' : (0 <= dy < H)%Z) by nia.
  exists (X (Min (Rect_ p)) + dx)%Z, (Y (Min (Rect_ p)) + dy)%Z, (Z.to_nat k).
  assert (Hoff : PixOffset p (X (Min (Rect_ p)) + dx) (Y (Min (Rect_ p)) + dy) = (4 * j)%Z).
  { unfold PixOffset. rewrite Hs. fold W. nia. }
  rewrite Hoff. split; [| split; [lia | split; [unfold iz in *; lia | lia]]].
  apply In_iff. unfold W, H, Dx, Dy in *. lia.
Qed.

Lemma RGBA_ext p q :
  RGBA_wf p -> RGBA_wf q -> Rect_ p = Rect_ q ->
  (forall x y, In x y (Rect_ p) = true -> RGBAAt p x y = RGBAAt q x y) ->
  p = q.
Proof.
  intros Hp Hq Hr Hpix.
  assert (Hs : Stride p = Stride q).
  { destruct Hp as (_ & _ & -> & _), Hq as (_ & _ & -> & _). by rewrite Hr. }
  assert (Hlen : length (Pix p) = length (Pix q)).
  { destruct Hp as (_ & _ & _ & Hlp), Hq as (_ & _ & _ & Hlq).
    rewrite Hs, Hr in Hlp. lia. }
  assert (Hbytes : Pix p = Pix q).
  { apply list_eq. intros i.
    destruct (decide (i < length (Pix p))%nat) as [Hi | Hi];
      [| by rewrite !lookup_ge_None_2 by lia].
    destruct (byte_of_pixel p i Hp Hi) as (x & y & k & Hin & Hk & -> & Hoff).
    specialize (Hpix x y Hin). unfold RGBAAt in Hpix.
    rewrite <- Hr, Hin in Hpix. simpl in Hpix.
    assert (Hq' : PixOffset q x y = PixOffset p x y).
    { unfold PixOffset. by rewrite Hr, Hs. }
    rewrite Hq' in Hpix. unfold byteAt in Hpix.
    destruct (lookup_lt_is_Some_2 (Pix p) _ Hi) as [u Hu].
    destruct (lookup_lt_is_Some_2 (Pix q) (Z.to_nat (PixOffset p x y) + k)) as [v Hv];
      [lia |].
    rewrite Hu, Hv. f_equal.
    injection Hpix as H0 H1 H2 H3.
    destruct k as [| [| [| [| k]]]]; [| | | | lia].
    - rewrite Nat.add_0_r in Hu, Hv. by rewrite Hu, Hv in H0.
    - by rewrite Hu, Hv in H1.
    - by rewrite Hu, Hv in H2.
    - by rewrite Hu, Hv in H3. }
  destruct p, q; simpl in *; congruence.
Qed.

End ImageFacts.

(** ** [draw.Draw], pixel by pixel *)

Section DrawFacts.
Import GoImage GoDraw.

Lemma fold_left_map {A B C} (f : A -> B -> A) (h : C -> B) (l : list C) (a : A) :
  fold_left f (h <$> l) a = fold_left (fun acc c => f acc (h c)) l a.
Proof. revert a. induction l as [| c l IH]; intros a; simpl; [done |]. apply IH. Qed.

Lemma fold_left_pointwise {A B} (f g : A -> B -> A) (l : list B) (a : A) :
  (forall acc x, f acc x = g acc x) -> fold_left f l a = fold_left g l a.
Proof.
  intros Hfg. revert a. induction l as [| x l IH]; intros a; simpl; [done |].
  by rewrite Hfg, IH.
Qed.

Lemma fold_left_cells {A} (f : A -> Z -> Z -> A) (rows columns : list Z) (a : A) :
  fold_left (fun acc row => fold_left (fun acc column => f acc row column) columns acc)
    rows a
  = fold_left (fun acc cell => f acc cell.1 cell.2) (cells rows columns) a.
Proof.
  revert a. induction rows as [| row rows IH]; intros a; [done |].
  unfold cells in *. simpl. rewrite fold_left_app, fold_left_map. simpl.
  apply IH.
Qed.

Lemma elem_of_cells row column rows columns :
  (row, column) ∈ cells rows columns <-> row ∈ rows /\ column ∈ columns.
Proof.
  unfold cells. rewrite list_elem_of_bind. split.
  - intros (r & (c & [= -> ->] & Hc)%list_elem_of_fmap & Hr). done.
  - intros [Hr Hc]. exists row. split; [| done].
    apply list_elem_of_fmap. eauto.
Qed.

Lemma NoDup_cells rows columns :
  NoDup rows -> NoDup columns -> NoDup (cells rows columns).
Proof.
  intros Hr Hc. unfold cells. apply NoDup_bind; [| | done].
  - intros r1 r2 [r c] _ _ (c1 & [= -> ->] & _)%list_elem_of_fmap
                            (c2 & [= -> ->] & _)%list_elem_of_fmap. done.
  - intros row _. apply NoDup_fmap_2; [| done]. by intros c1 c2 [= ->].
Qed.

(** Writing each point of a list once. *)
Lemma fold_SetRGBA_spec (g : Z -> Z -> GoColor.RGBA -> GoColor.RGBA)
    (points : list (Z * Z)) : forall dst,
  RGBA_wf dst -> NoDup points ->
  (forall y x, (y, x) ∈ points -> In x y (Rect_ dst) = true) ->
  let res :=
    fold_left (fun d pt => SetRGBA d pt.2 pt.1 (g pt.2 pt.1 (RGBAAt d pt.2 pt.1)))
      points dst in
  RGBA_wf res /\ Rect_ res = Rect_ dst
  /\ forall x y,
       RGBAAt res x y =
         if decide ((y, x) ∈ points) then g x y (RGBAAt dst x y)
         else RGBAAt dst x y.
Proof.
  induction points as [| [y0 x0] points IH]; intros dst Hwf Hnd Hin;
    cbn [fold_left fst snd].
  - split; [done |]. split; [done |]. intros x y.
    rewrite decide_False; [done | apply not_elem_of_nil].
  - apply NoDup_cons in Hnd as [Hfresh Hnd].
    set (dst1 := SetRGBA dst x0 y0 (g x0 y0 (RGBAAt dst x0 y0))).
    destruct (IH dst1) as (Hwf' & Hrect & Hpix).
    + by apply SetRGBA_wf.
    + done.
    + intros y x Hyx. unfold dst1. rewrite SetRGBA_Rect.
      apply Hin. by right.
    + split; [done |]. split; [by rewrite Hrect; apply SetRGBA_Rect |].
      intros x y. rewrite Hpix.
      assert (Hin0 : In x0 y0 (Rect_ dst) = true) by (apply Hin; by left).
      destruct (decide ((y, x) = (y0, x0))) as [[= -> ->] | Hne].
      * rewrite decide_False by done. rewrite decide_True by by left.
        by apply RGBAAt_SetRGBA_eq.
      * unfold dst1. rewrite RGBAAt_SetRGBA_ne by congruence.
        destruct (decide ((y, x) ∈ points)) as [Hyx | Hyx].
        -- rewrite decide_True by by right. done.
        -- rewrite decide_False; [done |].
           intros [? | ?]%elem_of_cons; done.
Qed.

Lemma Draw_spec dst rc src sp op :
  RGBA_wf dst ->
  RGBA_wf (Draw dst rc src sp op) /\ Rect_ (Draw dst rc src sp op) = Rect_ dst
  /\ forall x y,
       RGBAAt (Draw dst rc src sp op) x y =
         let sx := (X sp + (x - X (Min rc)))%Z in
         let sy := (Y sp + (y - Y (Min rc)))%Z in
         if In x y rc && In x y (Rect_ dst) && In sx sy (Bounds src)
         then blend op (At src sx sy) (RGBAAt dst x y)
         else RGBAAt dst x y.
Proof.
  intros Hwf. unfold Draw, clip.
  set (rc' := Intersect (Intersect rc (Rect_ dst))
                (Add (Bounds src) (Point_Sub (Min rc) sp))).
  assert (Hin' : forall x y,
             In x y rc' =
               In x y rc && In x y (Rect_ dst)
               && In (X sp + (x - X (Min rc))) (Y sp + (y - Y (Min rc))) (Bounds src)).
  { intros x y. unfold rc'. rewrite !In_Intersect, In_Add. simpl.
    do 2 f_equal; lia. }
  destruct (Rectangle_Empty rc') eqn:He.
  - split; [done |]. split; [done |]. intros x y. simpl.
    by rewrite <- Hin', (In_Empty x y rc' He).
  - rewrite fold_left_cells. simpl.
    set (g := fun x y d =>
                blend op (At src (X sp + (x - X (Min rc))) (Y sp + (y - Y (Min rc)))) d).
    assert (Hmem : forall y x,
               (y, x) ∈ cells (seqZ (Y (Min rc')) (Dy rc')) (seqZ (X (Min rc')) (Dx rc'))
               <-> In x y rc' = true).
    { intros y x. rewrite elem_of_cells, !elem_of_seqZ, In_iff.
      unfold Dx, Dy. lia. }
    destruct (fold_SetRGBA_spec g
                (cells (seqZ (Y (Min rc')) (Dy rc')) (seqZ (X (Min rc')) (Dx rc')))
                dst Hwf) as (Hwf' & Hrect & Hpix).
    + apply NoDup_cells; apply NoDup_seqZ.
    + intros y x Hyx%Hmem. rewrite Hin' in Hyx.
      by apply andb_true_iff in Hyx as [[_ ?]%andb_true_iff _].
    + assert (Hfold :
        fold_left
          (fun acc cell =>
             drawPixel src rc'
               (Pt (X sp + (X (Min rc') - X (Min rc))) (Y sp + (Y (Min rc') - Y (Min rc))))
               op acc cell.2 cell.1)
          (cells (seqZ (Y (Min rc')) (Dy rc')) (seqZ (X (Min rc')) (Dx rc'))) dst
        = fold_left
            (fun d pt => SetRGBA d pt.2 pt.1 (g pt.2 pt.1 (RGBAAt d pt.2 pt.1)))
            (cells (seqZ (Y (Min rc')) (Dy rc')) (seqZ (X (Min rc')) (Dx rc'))) dst).
      { apply fold_left_pointwise. intros d [y x]. unfold drawPixel, g. simpl.
        do 2 f_equal; f_equal; lia. }
      rewrite Hfold. split; [done |]. split; [done |].
      intros x y. rewrite Hpix, <- Hin'.
      destruct (In x y rc') eqn:Hxy.
      * rewrite decide_True by by apply Hmem. done.
      * rewrite decide_False; [done |]. rewrite Hmem. congruence.
Qed.

End DrawFacts.

(** ** The picture that [render_board] paints *)

Section RenderFacts.
Import GoImage GoDraw.
Variable assets : Assets.

#[local] Opaque NewRGBA Draw.

Lemma tileRect_eq row column :
  tileRect row column =
    {| Min := Pt (column * 64) (row * 64);
       Max := Pt (column * 64 + 64) (row * 64 + 64) |}.
Proof. unfold tileRect. apply Rect_ordered; lia. Qed.

Lemma In_tileRect x y row column :
  In x y (tileRect row column) = true <->
  (column * 64 <= x < column * 64 + 64 /\ row * 64 <= y < row * 64 + 64)%Z.
Proof. by rewrite tileRect_eq, In_iff. Qed.

Lemma In_tileRect_div x y row column :
  In x y (tileRect row column) = true <-> (row = y / 64 /\ column = x / 64)%Z.
Proof. rewrite In_tileRect. Z.div_mod_to_equations. lia. Qed.

Lemma In_canvas x y :
  In x y canvas = true <-> (0 <= x < 512 /\ 0 <= y < 512)%Z.
Proof. by rewrite In_iff. Qed.

Lemma In_Uniform c x y :
  (-1000000000 <= x < 1000000000)%Z -> (-1000000000 <= y < 1000000000)%Z ->
  In x y (Bounds (NewUniform c)) = true.
Proof. intros Hx Hy. apply In_iff. simpl. lia. Qed.

Lemma blend_Src_darkGray d :
  blend Src (At (NewUniform (GoColor.RGBA_RGBA darkGray)) 0 0) d = darkGray.
Proof. reflexivity. Qed.

Lemma blend_Src_White d : blend Src (At White 0 0) d = white.
Proof. reflexivity. Qed.

Lemma Board_index_shape b row column :
  Board_shape b -> (0 <= row < 8)%Z -> (0 <= column < 8)%Z ->
  is_Some (Board_index b row column).
Proof.
  intros [Hl Hrows] Hr Hc. unfold Board_index.
  destruct (Z.ltb_spec row 0); [lia |]. destruct (Z.ltb_spec column 0); [lia |].
  simpl.
  destruct (lookup_lt_is_Some_2 (Pieces b) (Z.to_nat row)) as [rowPieces Hrow]; [lia |].
  rewrite Hrow. simpl. apply lookup_lt_is_Some_2.
  rewrite Forall_forall in Hrows.
  rewrite (Hrows rowPieces); [lia |].
  by apply list_elem_of_lookup_2 in Hrow.
Qed.

Lemma pieceImages_Some piece :
  Piece_eqb piece Empty = false -> is_Some (pieceImages assets !! piece).
Proof. destruct piece; intros H; try discriminate H; by eexists. Qed.

(** The dark tile, when the parity asks for one. *)
Lemma paint_tile img row column :
  RGBA_wf img -> Rect_ img = canvas ->
  (0 <= row < 8)%Z -> (0 <= column < 8)%Z ->
  let img' :=
    if (tileColour row column =? 0)%Z then
      Draw img (tileRect row column)
        (NewUniform (GoColor.RGBA_RGBA darkGray)) (Pt 0 0) Src
    else img in
  RGBA_wf img' /\ Rect_ img' = canvas
  /\ forall x y,
       RGBAAt img' x y =
         if In x y (tileRect row column)
         then (if (tileColour row column =? 0)%Z then darkGray else RGBAAt img x y)
         else RGBAAt img x y.
Proof.
  intros Hwf Hrect Hr Hc.
  destruct (tileColour row column =? 0)%Z; cbv zeta.
  - destruct (Draw_spec img (tileRect row column)
                (NewUniform (GoColor.RGBA_RGBA darkGray)) (Pt 0 0) Src Hwf)
      as (Hwf' & Hrect' & Hpix).
    split; [done |]. split; [congruence |]. intros x y. rewrite Hpix. cbv zeta.
    destruct (In x y (tileRect row column)) eqn:Hin; [| done].
    apply In_tileRect in Hin. rewrite Hrect.
    rewrite (proj2 (In_canvas x y)) by lia.
    rewrite In_Uniform by (rewrite tileRect_eq; simpl; lia).
    done.
  - split; [done |]. split; [done |]. intros x y.
    by destruct (In x y (tileRect row column)).
Qed.

Lemma render_cell_spec b img row column :
  Board_shape b -> RGBA_wf img -> Rect_ img = canvas ->
  (0 <= row < 8)%Z -> (0 <= column < 8)%Z ->
  exists img',
    render_cell assets b img row column = Some img'
    /\ RGBA_wf img' /\ Rect_ img' = canvas
    /\ forall x y,
         RGBAAt img' x y =
           if In x y (tileRect row column)
           then cellPixel assets b row column x y (RGBAAt img x y)
           else RGBAAt img x y.
Proof.
  intros Hb Hwf Hrect Hr Hc.
  destruct (Board_index_shape b row column Hb Hr Hc) as [piece Hpiece].
  destruct (paint_tile img row column Hwf Hrect Hr Hc) as (Hwf1 & Hrect1 & Hpix1).
  unfold render_cell, cellPixel, pieceOver. rewrite Hpiece. simpl.
  destruct (Piece_eqb piece Empty) eqn:Hempty.
  - eexists. split; [done |]. split; [done |]. split; [done |]. exact Hpix1.
  - destruct (pieceImages_Some piece Hempty) as [pieceImage Himage].
    rewrite Himage. simpl.
    match goal with
    | |- context [Draw ?i _ pieceImage _ _] =>
        destruct (Draw_spec i (tileRect row column) pieceImage (Pt 0 0) Over Hwf1)
          as (Hwf2 & Hrect2 & Hpix2)
    end.
    eexists. split; [done |]. split; [done |]. split; [congruence |].
    intros x y. rewrite Hpix2, Hpix1. cbv zeta.
    destruct (In x y (tileRect row column)) eqn:Hin; [| done].
    apply In_tileRect in Hin. rewrite Hrect1.
    rewrite (proj2 (In_canvas x y)) by lia.
    rewrite tileRect_eq. simpl. done.
Qed.

Lemma render_cells_spec b (cs : list (Z * Z)) : forall img,
  Board_shape b -> RGBA_wf img -> Rect_ img = canvas ->
  NoDup cs ->
  (forall row column, (row, column) ∈ cs -> (0 <= row < 8 /\ 0 <= column < 8)%Z) ->
  exists img',
    fold_left (fun acc cell => img ← acc; render_cell assets b img cell.1 cell.2)
      cs (Some img) = Some img'
    /\ RGBA_wf img' /\ Rect_ img' = canvas
    /\ forall x y,
         In x y canvas = true ->
         RGBAAt img' x y =
           if decide ((y / 64, x / 64)%Z ∈ cs)
           then cellPixel assets b (y / 64) (x / 64) x y (RGBAAt img x y)
           else RGBAAt img x y.
Proof.
  induction cs as [| [row column] cs IH]; intros img Hb Hwf Hrect Hnd Hrange;
    cbn [fold_left fst snd].
  - exists img. split; [done |]. split; [done |]. split; [done |].
    intros x y _. rewrite decide_False; [done | apply not_elem_of_nil].
  - apply NoDup_cons in Hnd as [Hfresh Hnd].
    destruct (Hrange row column) as [Hr Hc]; [by left |].
    destruct (render_cell_spec b img row column Hb Hwf Hrect Hr Hc)
      as (img1 & Hcell & Hwf1 & Hrect1 & Hpix1).
    simpl. rewrite Hcell.
    destruct (IH img1 Hb Hwf1 Hrect1 Hnd) as (img' & Hfold & Hwf' & Hrect' & Hpix').
    { intros r c Hin. apply Hrange. by right. }
    exists img'. split; [done |]. split; [done |]. split; [done |].
    intros x y Hin. rewrite Hpix' by done. rewrite Hpix1.
    destruct (In x y (tileRect row column)) eqn:Htile.
    + apply In_tileRect_div in Htile as [-> ->].
      rewrite decide_False by done. rewrite decide_True by by left. done.
    + assert (Hne : (y / 64, x / 64)%Z <> (row, column)).
      { intros [= <- <-]. apply not_true_iff_false in Htile. apply Htile.
        by apply In_tileRect_div. }
      destruct (decide ((y / 64, x / 64)%Z ∈ cs)) as [Hcs | Hcs].
      * rewrite decide_True by by right. done.
      * rewrite decide_False; [done |]. intros [? | ?]%elem_of_cons; done.
Qed.

Lemma render_board_spec b :
  Board_shape b ->
  exists img,
    render_board assets b = Some img
    /\ RGBA_wf img /\ Rect_ img = canvas
    /\ forall x y,
         In x y canvas = true ->
         RGBAAt img x y = cellPixel assets b (y / 64) (x / 64) x y white.
Proof.
  intros Hb. unfold render_board. rewrite fold_left_cells.
  change (Rect 0 0 512 512) with canvas.
  assert (Hwf0 : RGBA_wf (NewRGBA canvas)) by (by apply NewRGBA_wf).
  destruct (Draw_spec (NewRGBA canvas) (Rect_ (NewRGBA canvas)) White (Pt 0 0) Src Hwf0)
    as (Hwf1 & Hrect1 & Hpix1).
  rewrite NewRGBA_Rect in *.
  destruct (render_cells_spec b (cells (seqZ 0 8) (seqZ 0 8)) _ Hb Hwf1 Hrect1)
    as (img & Hfold & Hwf & Hrect & Hpix).
  - apply NoDup_cells; apply NoDup_seqZ.
  - intros row column [Hr Hc]%elem_of_cells.
    apply elem_of_seqZ in Hr, Hc. lia.
  - exists img. split; [exact Hfold |]. split; [done |]. split; [done |].
    intros x y Hin. rewrite Hpix by done.
    pose proof (proj1 (In_canvas x y) Hin) as Hxy.
    assert (Hwhite : RGBAAt (Draw (NewRGBA canvas) canvas White (Pt 0 0) Src) x y = white).
    { rewrite Hpix1. cbv zeta. rewrite Hin. unfold White.
      rewrite In_Uniform; [reflexivity | unfold canvas; simpl; lia ..]. }
    rewrite Hwhite. apply decide_True.
    apply elem_of_cells. rewrite !elem_of_seqZ.
    clear - Hxy. Z.div_mod_to_equations. lia.
Qed.

End RenderFacts.

(** ** No turn of [validate] can fail at run time *)

Section SafetyFacts.

Lemma pieceChars_symbol c : pieceChars !! c = Spec.symbol c.
Proof. destruct c as [[] [] [] [] [] [] [] []]; reflexivity. Qed.

Lemma symbol_case c p :
  Spec.symbol c = Some p ->
  (Spec.isUpper c = true /\ Spec.isWhite p = true)
  \/ (Spec.isLower c = true /\ Spec.isBlack p = true).
Proof.
  destruct c as [[] [] [] [] [] [] [] []]; intros H; try discriminate H;
    injection H as <-; (left + right); split; reflexivity.
Qed.

Lemma Atoi_digit char :
  Spec.inAlphabet char = true -> pieceChars_index char = Empty ->
  exists blanks,
    GoStrconv.Atoi [char] = (blanks, None) /\ (1 <= blanks <= 8)%Z
    /\ Spec.blanks char = Some (Z.to_nat blanks).
Proof.
  destruct char as [[] [] [] [] [] [] [] []]; intros Ha Hm;
    try discriminate Ha; vm_compute in Hm; try discriminate Hm;
    eexists; (split; [vm_compute; reflexivity | split; [lia | reflexivity]]).
Qed.

Lemma validate_rows_no_panic segments : forall row result,
  length (Pieces result) = 8%nat -> (row + length segments <= 8)%nat ->
  validate_rows row segments result <> Panicked.
Proof.
  induction segments as [| segment rest IH]; intros row result Hl Hrow;
    cbn [validate_rows]; [done |].
  destruct (negb _); [done |]. simpl in Hrow.
  destruct (lookup_lt_is_Some_2 (Pieces result) row) as [dst Hdst]; [lia |].
  rewrite Hdst. apply IH; simpl; [by rewrite length_insert | lia].
Qed.

Lemma validate_rows_count s :
  Spec.structural s = true ->
  (Forall (fun segment => length (Spec.expand segment) = 8%nat) (Spec.segments s) ->
   validate s = Returned (Some {| Pieces := map Spec.expand (Spec.segments s) |}) None)
  /\ (Exists (fun segment => length (Spec.expand segment) <> 8%nat) (Spec.segments s) ->
      validate s = InvalidFEN).
Proof.
  intros Hs. rewrite (validate_structural s Hs). unfold Spec.rows_ok. split.
  - intros Hall.
    replace (forallb _ _) with true; [done |]. symmetry.
    apply forallb_forall. intros segment Hin.
    rewrite Forall_forall in Hall. apply Nat.eqb_eq, Hall.
    by apply list_elem_of_In.
  - intros Hex. replace (forallb _ _) with false; [done |]. symmetry.
    apply not_true_iff_false. intros Hall. rewrite forallb_forall in Hall.
    apply Exists_exists in Hex as (segment & Hin & Hne).
    apply Hne, Nat.eqb_eq, Hall. by apply list_elem_of_In.
Qed.

End SafetyFacts.

(** * The claims about the validator *)

(** C1. Every string that does not have the structural shape (eight
    segments between slashes, each of one to eight characters among the
    twelve piece letters and the digits 1 to 8) is rejected with the one
    failure and no Board; so are a string of seven segments, the digits 9
    and 0, and the empty string. *)
Theorem validate_rejects_unstructured :
  (forall s, Spec.structural s = false ->
             validate s = Returned None (Some (Echo.NewHTTPError 400 "Invalid FEN")))
  /\ validate "8/8/8/8/8/8/8" = InvalidFEN
  /\ validate "9/8/8/8/8/8/8/8" = InvalidFEN
  /\ validate "0/8/8/8/8/8/8/8" = InvalidFEN
  /\ validate "" = InvalidFEN.
Proof.
  split; [exact validate_not_structural |].
  repeat split; by apply validate_not_structural.
Qed.

Lemma validate_rejects_unstructured_witness :
  Spec.structural "8/8/8/8/8/8/8/8/8" = false
  /\ validate "8/8/8/8/8/8/8/8/8"
     = Returned None (Some (Echo.NewHTTPError 400 "Invalid FEN")).
Proof.
  split; [reflexivity |].
  apply (proj1 validate_rejects_unstructured). reflexivity.
Defined.

(** C2. On a string of the structural shape, [validate] expands each of the
    eight segments from left to right, a letter to one cell of its piece and
    a digit d to d empty cells; when every row has eight cells the rows are
    stored in order, and when some row has not the string is rejected. *)
Theorem validate_expands_rows (s : string) :
  Spec.structural s = true ->
  length (Spec.segments s) = 8%nat
  /\ (Forall (fun segment => length (Spec.expand segment) = 8%nat) (Spec.segments s) ->
      validate s = Returned (Some {| Pieces := map Spec.expand (Spec.segments s) |}) None)
  /\ (Exists (fun segment => length (Spec.expand segment) <> 8%nat) (Spec.segments s) ->
      validate s = InvalidFEN).
Proof.
  intros Hs. split.
  - unfold Spec.structural in Hs. apply andb_true_iff in Hs as [Hl _].
    by apply Nat.eqb_eq in Hl.
  - by apply validate_rows_count.
Qed.

Lemma validate_expands_rows_witness :
  Spec.structural "4p3/8/8/8/8/8/8/R6k" = true
  /\ validate "4p3/8/8/8/8/8/8/R6k"
     = Returned
         (Some {| Pieces := map Spec.expand (Spec.segments "4p3/8/8/8/8/8/8/R6k") |})
         None.
Proof.
  split; [reflexivity |].
  apply (validate_expands_rows "4p3/8/8/8/8/8/8/R6k"); [reflexivity |].
  repeat constructor.
Defined.

(** C3. The count of the second pass tells apart what the pattern cannot:
    [44/8/8/8/8/8/8/8] is accepted with a first row of eight empty cells,
    while a string of the structural shape with a row that does not expand
    to eight cells (two 8s, sixteen cells) is rejected. *)
Theorem validate_second_pass :
  Spec.structural "44/8/8/8/8/8/8/8" = true
  /\ (exists b, validate "44/8/8/8/8/8/8/8" = Returned (Some b) None
                /\ Pieces b !! 0%nat = Some (replicate 8 Empty))
  /\ Spec.structural "88/8/8/8/8/8/8/8" = true
  /\ validate "88/8/8/8/8/8/8/8" = InvalidFEN
  /\ (forall s,
        Spec.structural s = true ->
        Exists (fun segment => length (Spec.expand segment) <> 8%nat) (Spec.segments s) ->
        validate s = Returned None (Some (Echo.NewHTTPError 400 "Invalid FEN"))).
Proof.
  split; [vm_compute; reflexivity |].
  split; [exists Board_zero; split; vm_compute; reflexivity |].
  split; [vm_compute; reflexivity |]. split; [vm_compute; reflexivity |].
  intros s Hs Hex. by apply (validate_rows_count s Hs).
Qed.

Lemma validate_second_pass_witness :
  Spec.structural "8/8/8/pppp/8/8/8/8" = true
  /\ validate "8/8/8/pppp/8/8/8/8"
     = Returned None (Some (Echo.NewHTTPError 400 "Invalid FEN")).
Proof.
  split; [reflexivity |].
  apply validate_second_pass; [reflexivity |].
  do 3 apply Exists_cons_tl. apply Exists_cons_hd. simpl. lia.
Defined.

(** C4. The starting position is accepted: the black back rank in row 0,
    black pawns in row 1, empty rows 2 to 5, white pawns in row 6 and the
    white back rank in row 7; the map sends uppercase letters to white
    pieces and lowercase letters to black ones. *)
Theorem validate_starting_position :
  validate "rnbqkbnr/pppppppp/8/8/8/8/PPPPPPPP/RNBQKBNR"
  = Returned
      (Some
         {| Pieces :=
              [[BlackRook; BlackKnight; BlackBishop; BlackQueen;
                BlackKing; BlackBishop; BlackKnight; BlackRook];
               [BlackPawn; BlackPawn; BlackPawn; BlackPawn;
                BlackPawn; BlackPawn; BlackPawn; BlackPawn];
               [Empty; Empty; Empty; Empty; Empty; Empty; Empty; Empty];
               [Empty; Empty; Empty; Empty; Empty; Empty; Empty; Empty];
               [Empty; Empty; Empty; Empty; Empty; Empty; Empty; Empty];
               [Empty; Empty; Empty; Empty; Empty; Empty; Empty; Empty];
               [WhitePawn; WhitePawn; WhitePawn; WhitePawn;
                WhitePawn; WhitePawn; WhitePawn; WhitePawn];
               [WhiteRook; WhiteKnight; WhiteBishop; WhiteQueen;
                WhiteKing; WhiteBishop; WhiteKnight; WhiteRook]] |})
      None
  /\ (forall char piece,
        pieceChars !! char = Some piece ->
        (Spec.isUpper char = true /\ Spec.isWhite piece = true)
        \/ (Spec.isLower char = true /\ Spec.isBlack piece = true)).
Proof.
  split; [reflexivity |].
  intros char piece. rewrite pieceChars_symbol. apply symbol_case.
Qed.

(** C7. Writing the Board of an accepted notation back (row by row, runs of
    empty cells as digits, letters otherwise) gives a notation that is
    accepted with the same Board. *)
Theorem validate_serialize_roundtrip (s : string) (b : Board) :
  validate s = Returned (Some b) None ->
  validate (Spec.serialize b) = Returned (Some b) None.
Proof.
  intros Hv. apply validate_serialize.
  destruct (validate_cases s) as [(b' & Hv' & Hshape & _) | Hinv].
  - congruence.
  - unfold InvalidFEN in Hinv. congruence.
Qed.

Lemma validate_serialize_roundtrip_witness :
  validate "44/8/8/p3P3/8/8/8/8" = Returned (Some
    {| Pieces := map Spec.expand (Spec.segments "44/8/8/p3P3/8/8/8/8") |}) None
  /\ Spec.serialize
       {| Pieces := map Spec.expand (Spec.segments "44/8/8/p3P3/8/8/8/8") |}
     = "8/8/8/p3P3/8/8/8/8"%string
  /\ validate
       (Spec.serialize
          {| Pieces := map Spec.expand (Spec.segments "44/8/8/p3P3/8/8/8/8") |})
     = Returned (Some
         {| Pieces := map Spec.expand (Spec.segments "44/8/8/p3P3/8/8/8/8") |}) None.
Proof.
  split; [reflexivity |]. split; [reflexivity |].
  apply (validate_serialize_roundtrip "44/8/8/p3P3/8/8/8/8"). reflexivity.
Defined.

(** C10. Once the pattern has matched, nothing in [validate] can fail at
    run time: the split has eight segments, so the row index stays within
    the eight rows; every character that the map does not know is a digit
    from 1 to 8, on which [Atoi] succeeds with that value; no string makes
    [validate] panic. *)
Theorem validate_never_panics :
  (forall s,
     GoRegexp.MatchString FEN (list_ascii_of_string s) = true ->
     length (GoStrings.Split (list_ascii_of_string s) "/") = 8%nat
     /\ Forall
          (Forall (fun char =>
                     pieceChars_index char = Empty ->
                     exists blanks,
                       GoStrconv.Atoi [char] = (blanks, None) /\ (1 <= blanks <= 8)%Z))
          (GoStrings.Split (list_ascii_of_string s) "/"))
  /\ (forall segments row result,
        length (Pieces result) = 8%nat -> (row + length segments <= 8)%nat ->
        validate_rows row segments result <> Panicked)
  /\ (forall s, validate s <> Panicked).
Proof.
  split; [| split].
  - intros s Hm. rewrite FEN_structural in Hm. unfold Spec.structural in Hm.
    apply andb_true_iff in Hm as [Hl Hall]. apply Nat.eqb_eq in Hl.
    split; [done |].
    apply segment_ok_alphabet in Hall. rewrite forallb_forall in Hall.
    apply Forall_forall. intros segment Hseg%list_elem_of_In.
    specialize (Hall segment Hseg). rewrite forallb_forall in Hall.
    apply Forall_forall. intros char Hchar%list_elem_of_In Hempty.
    destruct (Atoi_digit char (Hall char Hchar) Hempty) as (blanks & H1 & H2 & _).
    eauto.
  - intros segments row result. apply validate_rows_no_panic.
  - intros s. destruct (validate_cases s) as [(b & -> & _) | ->]; done.
Qed.

Lemma validate_never_panics_witness :
  length (GoStrings.Split (list_ascii_of_string "7k/8/8/8/8/8/8/K7") "/") = 8%nat
  /\ validate_rows 0 (GoStrings.Split (list_ascii_of_string "8/8/8") "/") Board_zero
     <> Panicked.
Proof.
  split.
  - apply (proj1 validate_never_panics "7k/8/8/8/8/8/8/K7"). reflexivity.
  - apply (proj1 (proj2 validate_never_panics)); simpl; [reflexivity | lia].
Defined.

(** ** The picture, tile by tile *)

Section PictureFacts.
Import GoImage GoDraw.

Lemma tileColour_parity row column :
  (0 <= row)%Z -> (0 <= column)%Z ->
  (tileColour row column =? 0)%Z = ((row + column) mod 2 =? 0)%Z.
Proof.
  intros Hr Hc. unfold tileColour. by rewrite Z.rem_mod_nonneg by lia.
Qed.

Lemma render_board_pixels assets b :
  Board_shape b ->
  exists img,
    render_board assets b = Some img
    /\ RGBA_wf img /\ Rect_ img = canvas
    /\ forall row column x y,
         (0 <= row < 8)%Z -> (0 <= column < 8)%Z ->
         (column * 64 <= x < column * 64 + 64)%Z ->
         (row * 64 <= y < row * 64 + 64)%Z ->
         RGBAAt img x y = pieceOver assets b row column x y (tilePixel row column).
Proof.
  intros Hb.
  destruct (render_board_spec assets b Hb) as (img & Himg & Hwf & Hrect & Hpix).
  exists img. split; [done |]. split; [done |]. split; [done |].
  intros row column x y Hr Hc Hx Hy.
  rewrite Hpix by (apply In_canvas; lia).
  replace (y / 64)%Z with row by (Z.div_mod_to_equations; lia).
  replace (x / 64)%Z with column by (Z.div_mod_to_equations; lia).
  unfold cellPixel, tilePixel. by rewrite tileColour_parity by lia.
Qed.

Lemma pieceOver_same a1 a2 b row column x y base :
  Assets_same a1 a2 ->
  pieceOver a1 b row column x y base = pieceOver a2 b row column x y base.
Proof.
  intros Hsame. unfold pieceOver.
  destruct (Board_index b row column) as [piece |]; [| done].
  destruct (Piece_eqb piece Empty) eqn:Hempty; [done |].
  destruct (pieceImages_Some a1 piece Hempty) as [i1 H1].
  destruct (Hsame piece i1 H1) as (i2 & H2 & Hb & Hat).
  rewrite H1, H2. cbv zeta. rewrite <- Hb.
  destruct (In _ _ (Bounds i1)) eqn:Hin; [| done].
  by rewrite (Hat _ _ Hin).
Qed.

Lemma render_board_same a1 a2 b :
  Board_shape b -> Assets_same a1 a2 ->
  render_board a1 b = render_board a2 b.
Proof.
  intros Hb Hsame.
  destruct (render_board_spec a1 b Hb) as (img1 & -> & Hwf1 & Hrect1 & Hpix1).
  destruct (render_board_spec a2 b Hb) as (img2 & -> & Hwf2 & Hrect2 & Hpix2).
  f_equal. apply RGBA_ext; [done | done | congruence |].
  intros x y Hin. rewrite Hrect1 in Hin.
  rewrite Hpix1, Hpix2 by done. unfold cellPixel. by apply pieceOver_same.
Qed.

Lemma channel_Over_transparent d :
  (0 <= d < 256)%Z -> channel Over d 0 0 = d.
Proof.
  intros Hd. unfold channel, uint8, m.
  rewrite Z.sub_0_r, Z.div_mul, Z.add_0_r by done.
  rewrite Z.shiftr_div_pow2 by done.
  change (2 ^ 8)%Z with 256%Z.
  Z.div_mod_to_equations. lia.
Qed.

Lemma blend_Over_transparent d :
  (0 <= GoColor.R d < 256)%Z -> (0 <= GoColor.G d < 256)%Z ->
  (0 <= GoColor.B d < 256)%Z -> (0 <= GoColor.A d < 256)%Z ->
  blend Over transparent d = d.
Proof.
  intros HR HG HB HA. unfold blend, transparent.
  cbn [GoColor.r GoColor.g GoColor.b GoColor.a].
  rewrite !channel_Over_transparent by done. by destruct d.
Qed.

Lemma Board_zero_shape : Board_shape Board_zero.
Proof. split; [reflexivity | repeat constructor]. Qed.

Lemma startBoard_shape : Board_shape startBoard.
Proof. split; [reflexivity | repeat constructor]. Qed.

Lemma pieceImages_lookup assets piece :
  pieceImages assets !! piece =
    match piece with
    | Empty => None
    | WhitePawn => Some (WhitePawnImage assets)
    | WhiteKnight => Some (WhiteKnightImage assets)
    | WhiteBishop => Some (WhiteBishopImage assets)
    | WhiteRook => Some (WhiteRookImage assets)
    | WhiteQueen => Some (WhiteQueenImage assets)
    | WhiteKing => Some (WhiteKingImage assets)
    | BlackPawn => Some (BlackPawnImage assets)
    | BlackKnight => Some (BlackKnightImage assets)
    | BlackBishop => Some (BlackBishopImage assets)
    | BlackRook => Some (BlackRookImage assets)
    | BlackQueen => Some (BlackQueenImage assets)
    | BlackKing => Some (BlackKingImage assets)
    end.
Proof. destruct piece; reflexivity. Qed.

Lemma plainAssets_64 : Assets_64 (plainAssets plainImage).
Proof.
  intros piece pieceImage. rewrite pieceImages_lookup.
  destruct piece; intros [= <-]; reflexivity.
Qed.

Lemma plainImage_same c : Image_same (plainImage c) (plainImage' c).
Proof.
  split; [reflexivity |]. intros x y Hin. simpl in *. by rewrite Hin.
Qed.

Lemma plainAssets_same : Assets_same (plainAssets plainImage) (plainAssets plainImage').
Proof.
  intros piece i1. rewrite !pieceImages_lookup.
  destruct piece; intros [= <-]; (eexists; split; [reflexivity |]);
    apply plainImage_same.
Qed.

End PictureFacts.

(** * The claims about the renderer *)

(** C5. In the picture of a Board, the tile at (row, column) has the opaque
    dark gray 0x4f4f4f under whatever stands on it when (row + column) is
    even, and the opaque white of the background when it is odd; a tile
    with an empty cell shows exactly that colour; 32 of the 64 tiles are
    dark, the top-left one among them. *)
Theorem render_tile_parity (assets : Assets) (b : Board) :
  Board_shape b ->
  exists img,
    render_board assets b = Some img
    /\ (forall row column x y,
          (0 <= row < 8)%Z -> (0 <= column < 8)%Z ->
          (column * 64 <= x < column * 64 + 64)%Z ->
          (row * 64 <= y < row * 64 + 64)%Z ->
          GoImage.RGBAAt img x y =
            pieceOver assets b row column x y
              (if ((row + column) mod 2 =? 0)%Z
               then {| GoColor.R := 0x4f; GoColor.G := 0x4f; GoColor.B := 0x4f;
                       GoColor.A := 0xff |}
               else {| GoColor.R := 0xff; GoColor.G := 0xff; GoColor.B := 0xff;
                       GoColor.A := 0xff |})
          /\ (Board_index b row column = Some Empty ->
              (GoImage.RGBAAt img x y = darkGray <-> (row + column) mod 2 = 0)%Z
              /\ (GoImage.RGBAAt img x y = white <-> (row + column) mod 2 <> 0)%Z))
    /\ length (filter (fun cell => tileColour cell.1 cell.2 = 0%Z)
                 (cells (seqZ 0 8) (seqZ 0 8))) = 32%nat
    /\ tileColour 0 0 = 0%Z.
Proof.
  intros Hb.
  destruct (render_board_pixels assets b Hb) as (img & Himg & _ & _ & Hpix).
  exists img. split; [done |]. split; [| split; reflexivity].
  intros row column x y Hr Hc Hx Hy.
  specialize (Hpix row column x y Hr Hc Hx Hy). split; [exact Hpix |].
  intros Hcell. rewrite Hpix. unfold pieceOver. rewrite Hcell. simpl.
  unfold tilePixel.
  destruct (Z.eqb_spec ((row + column) mod 2) 0) as [He | Hne].
  - split; [tauto |]. split; [discriminate | tauto].
  - split; [| tauto]. split; [discriminate | tauto].
Qed.

Lemma render_tile_parity_witness :
  exists img,
    render_board (plainAssets plainImage) startBoard = Some img
    /\ GoImage.RGBAAt img 260 300 = darkGray
    /\ GoImage.RGBAAt img 200 300 = white.
Proof.
  destruct (render_tile_parity (plainAssets plainImage) startBoard startBoard_shape)
    as (img & Himg & Hpix & _).
  exists img. split; [exact Himg |]. split.
  - apply (proj2 (Hpix 4 4 260 300 ltac:(lia) ltac:(lia) ltac:(lia) ltac:(lia))%Z);
      reflexivity.
  - apply (proj2 (Hpix 4 3 200 300 ltac:(lia) ltac:(lia) ltac:(lia) ltac:(lia))%Z);
      [reflexivity | discriminate].
Defined.

(** C6. The picture of a Board is a buffer of 512 by 512 pixels with four
    bytes each; before the loops it is opaque white everywhere; on the tile
    of an empty cell nothing but the tile colour is drawn, and on the tile
    of a piece the 64 by 64 image of that piece is laid over the tile colour
    with the operator [Over], so that a transparent pixel of the image
    leaves the tile colour in place. *)
Theorem render_canvas_and_pieces (assets : Assets) (b : Board) :
  Board_shape b -> Assets_64 assets ->
  exists img,
    render_board assets b = Some img
    /\ GoImage.Rect_ img = GoImage.Rect 0 0 512 512
    /\ GoImage.Stride img = (4 * 512)%Z
    /\ Z.of_nat (length (GoImage.Pix img)) = (4 * 512 * 512)%Z
    /\ (forall x y,
          (0 <= x < 512)%Z -> (0 <= y < 512)%Z ->
          GoImage.RGBAAt
            (GoDraw.Draw (GoImage.NewRGBA (GoImage.Rect 0 0 512 512))
               (GoImage.Rect 0 0 512 512) GoImage.White (GoImage.Pt 0 0) GoDraw.Src)
            x y = white)
    /\ (forall row column x y,
          (0 <= row < 8)%Z -> (0 <= column < 8)%Z ->
          (column * 64 <= x < column * 64 + 64)%Z ->
          (row * 64 <= y < row * 64 + 64)%Z ->
          exists piece,
            Board_index b row column = Some piece
            /\ (piece = Empty -> GoImage.RGBAAt img x y = tilePixel row column)
            /\ (piece <> Empty ->
                exists pieceImage,
                  pieceImages assets !! piece = Some pieceImage
                  /\ GoImage.RGBAAt img x y =
                       GoDraw.blend GoDraw.Over
                         (GoImage.At pieceImage (x - column * 64) (y - row * 64))
                         (tilePixel row column)))
    /\ (forall row column,
          GoDraw.blend GoDraw.Over transparent (tilePixel row column)
          = tilePixel row column).
Proof.
  intros Hb H64.
  destruct (render_board_pixels assets b Hb) as (img & Himg & Hwf & Hrect & Hpix).
  exists img. split; [done |].
  destruct Hwf as (_ & _ & Hstride & Hlen). rewrite Hstride in Hlen.
  rewrite Hrect in *.
  split; [done |]. split; [done |]. split; [done |]. split; [| split].
  - intros x y Hx Hy.
    change (GoImage.Rect 0 0 512 512) with canvas.
    destruct (Draw_spec (GoImage.NewRGBA canvas) canvas GoImage.White (GoImage.Pt 0 0)
                GoDraw.Src (NewRGBA_wf canvas ltac:(done) ltac:(done)))
      as (_ & _ & Hwhite).
    rewrite Hwhite. cbv zeta. rewrite NewRGBA_Rect.
    rewrite (proj2 (In_canvas x y)) by lia.
    unfold GoImage.White. rewrite In_Uniform; [reflexivity | unfold canvas; simpl; lia ..].
  - intros row column x y Hr Hc Hx Hy.
    destruct (Board_index_shape b row column Hb Hr Hc) as [piece Hpiece].
    exists piece. split; [done |].
    rewrite (Hpix row column x y Hr Hc Hx Hy). unfold pieceOver. rewrite Hpiece.
    split.
    + by intros ->.
    + intros Hne.
      assert (Hempty : Piece_eqb piece Empty = false) by by destruct piece.
      rewrite Hempty.
      destruct (pieceImages_Some assets piece Hempty) as [pieceImage Himage].
      exists pieceImage. split; [done |]. rewrite Himage. cbv zeta.
      rewrite (H64 piece pieceImage Himage).
      replace (GoImage.In _ _ _) with true; [done |].
      symmetry. apply In_iff. simpl. lia.
  - intros row column. unfold tilePixel.
    by destruct (_ =? 0)%Z.
Qed.

Lemma render_canvas_and_pieces_witness :
  exists img,
    render_board (plainAssets plainImage) startBoard = Some img
    /\ Z.of_nat (length (GoImage.Pix img)) = (4 * 512 * 512)%Z
    /\ GoImage.RGBAAt img 0 0
       = GoDraw.blend GoDraw.Over (GoColor.Gray16_RGBA 0x3000) darkGray
    /\ GoImage.RGBAAt img 300 10 = darkGray.
Proof.
  destruct (render_canvas_and_pieces (plainAssets plainImage) startBoard
              startBoard_shape plainAssets_64)
    as (img & Himg & _ & _ & Hlen & _ & Hpix & Hclear).
  exists img. split; [exact Himg |]. split; [exact Hlen |]. split.
  - destruct (Hpix 0 0 0 0 ltac:(lia) ltac:(lia) ltac:(lia) ltac:(lia))%Z
      as (piece & [= <-] & _ & Hover).
    destruct (Hover ltac:(discriminate)) as (pieceImage & Himage & ->).
    rewrite pieceImages_lookup in Himage. injection Himage as <-.
    reflexivity.
  - destruct (Hpix 0 4 300 10 ltac:(lia) ltac:(lia) ltac:(lia) ltac:(lia))%Z
      as (piece & [= <-] & _ & Hover).
    destruct (Hover ltac:(discriminate)) as (pieceImage & Himage & ->).
    rewrite pieceImages_lookup in Himage. injection Himage as <-.
    exact (Hclear 0 4)%Z.
Defined.

(** C8. The picture depends on nothing but the Board and the colours of the
    images inside their bounds: two families of images that agree there give
    the same buffer, byte for byte, and the readings of the clock do not
    reach the body of the response. *)
Theorem render_deterministic (a1 a2 : Assets)
    (HTTPError_Error : Echo.HTTPError -> string) (Duration_String : Z -> string)
    (board : string) (start now start' now' : Z) :
  Assets_same a1 a2 ->
  (forall b, Board_shape b ->
             GoImage.Pix <$> render_board a1 b = GoImage.Pix <$> render_board a2 b)
  /\ (fun r => ResponseBody (response r))
       <$> render a1 HTTPError_Error Duration_String board start now
     = (fun r => ResponseBody (response r))
         <$> render a2 HTTPError_Error Duration_String board start' now'.
Proof.
  intros Hsame. split.
  - intros b Hb. by rewrite (render_board_same a1 a2 b Hb Hsame).
  - unfold render.
    destruct (validate_cases board) as [(b & -> & Hb & _) | ->].
    + rewrite (render_board_same a1 a2 b Hb Hsame).
      by destruct (render_board a2 b).
    + done.
Qed.

Lemma render_deterministic_witness :
  GoImage.Pix <$> render_board (plainAssets plainImage) startBoard
  = GoImage.Pix <$> render_board (plainAssets plainImage') startBoard.
Proof.
  destruct (render_deterministic (plainAssets plainImage) (plainAssets plainImage')
              (fun e => Echo.Message e) (fun _ => "0s"%string) "" 0 1 2 5
              plainAssets_same) as [Hboard _].
  exact (Hboard startBoard startBoard_shape).
Defined.

(** C9. [validate] ends in one of two ways: a complete Board without an
    error, or no Board and the error 400 "Invalid FEN".  The failure of the
    pattern and the failure of the count give that same error, and
    [render] answers both with status 400 and the text of the error. *)
Theorem validate_uniform_failure :
  (forall s,
     (exists b, validate s = Returned (Some b) None /\ Board_shape b)
     \/ validate s
        = Returned None (Some {| Echo.Code := 400; Echo.Message := "Invalid FEN" |}))
  /\ (forall s, Spec.structural s = false -> validate s = InvalidFEN)
  /\ (forall s, Spec.structural s = true -> Spec.rows_ok s = false ->
                validate s = InvalidFEN)
  /\ (forall assets HTTPError_Error Duration_String s start now,
        validate s = InvalidFEN ->
        render assets HTTPError_Error Duration_String s start now
        = Some
            {| response :=
                 {| Status := 400;
                    Header := {[ "Content-Type"%string := "text/plain; charset=UTF-8"%string ]};
                    ResponseBody :=
                      Text (HTTPError_Error (Echo.NewHTTPError 400 "Invalid FEN")) |};
               stdout := "" |}).
Proof.
  split; [| split; [| split]].
  - intros s. destruct (validate_cases s) as [(b & Hv & Hb & _) | Hv]; eauto.
  - exact validate_not_structural.
  - intros s Hs Hr. by rewrite (validate_structural s Hs), Hr.
  - intros assets E D s start now Hv. unfold render. by rewrite Hv.
Qed.

Lemma validate_uniform_failure_witness :
  validate "8/8" = InvalidFEN
  /\ validate "8/8/63/8/8/8/8/8" = InvalidFEN
  /\ render (plainAssets plainImage) (fun e => Echo.Message e) (fun _ => "0s"%string)
       "8/8" 0 1
     = render (plainAssets plainImage) (fun e => Echo.Message e) (fun _ => "0s"%string)
         "8/8/63/8/8/8/8/8" 0 1.
Proof.
  destruct validate_uniform_failure as (_ & Hpattern & Hcount & Hrender).
  assert (H1 : validate "8/8" = InvalidFEN) by (apply Hpattern; reflexivity).
  assert (H2 : validate "8/8/63/8/8/8/8/8" = InvalidFEN)
    by (apply Hcount; reflexivity).
  split; [exact H1 |]. split; [exact H2 |].
  rewrite (Hrender _ _ _ "8/8"%string 0%Z 1%Z H1).
  rewrite (Hrender _ _ _ "8/8/63/8/8/8/8/8"%string 0%Z 1%Z H2).
  reflexivity.
Defined.
